(** * sysext-cli: image discovery, metadata resolution and update selection

    A shallow embedding of [src/images-list.c], [src/newversion.c] and
    [src/json-common.c], and the properties of the specification proved
    (or refuted) on it.

    Conventions of the embedding.
    - A C string is a [string] holding the bytes before the terminating
      NUL.  A [char *] that may be NULL is an [option].  The bytes of a
      downloaded manifest are a [string] that may hold NUL bytes; the C
      string a line buffer starts with is [c_str] of it.
    - [malloc], [calloc], [realloc] and [strdup] always succeed: the
      [oom()] and [-ENOMEM] branches are not modelled, and a pointer they
      hand out is never NULL, also where the source does not check it.
      No statement below says what the code does when memory runs out.
    - The collaborators that are not part of these files (download,
      extraction, the release-file and JSON parsers, the directory and
      symlink system calls) are the fields of a [world] record.
    - A call either returns, or ends the process with [exit], or
      dereferences a null pointer, or reads a pointer from memory that
      was never written; the four are the constructors of [outcome].
      The set of live temporary files is threaded as state. *)

From Stdlib Require Import ZArith List String Ascii Bool Lia.
From Stdlib Require Import Sorting.Sorted Sorting.Permutation.
Import ListNotations.

Local Open Scope string_scope.
Local Open Scope list_scope.
Local Open Scope Z_scope.

(* ================================================================== *)
(** * C library strings                                                 *)
(* ================================================================== *)

Module CString.

(** The value of a byte as [unsigned char]. *)
Definition byte (c : ascii) : Z := Z.of_N (N_of_ascii c).

(** [strcmp]: the difference of the first two bytes that differ, the end
  of a string counting as the byte 0; the comparison stops at a NUL. *)
Fixpoint strcmp (s1 s2 : string) : Z :=
match s1, s2 with
| EmptyString, EmptyString => 0
| EmptyString, String b _ => 0 - byte b
| String a _, EmptyString => byte a
| String a t1, String b t2 =>
    if Ascii.eqb a b
    then (if Ascii.eqb a "000" then 0 else strcmp t1 t2)
    else byte a - byte b
end.

(** [strchr(s, c)]: the part of [s] that starts at the first [c], or NULL. *)
Fixpoint strchr (s : string) (c : ascii) : option string :=
match s with
| EmptyString => None
| String a t => if Ascii.eqb a c then Some s else strchr t c
end.

(** [strrchr(s, c)], as the two pieces it cuts [s] into: the bytes before
  the last [c], and the bytes after it.  NULL when [c] is absent. *)
Fixpoint strrchr (s : string) (c : ascii) : option (string * string) :=
match s with
| EmptyString => None
| String a t =>
    match strrchr t c with
    | Some (before, after) => Some (String a before, after)
    | None => if Ascii.eqb a c then Some (EmptyString, t) else None
    end
end.

(** [p = strrchr(s, c); if (p) *p = '\0';] *)
Definition cut_last (c : ascii) (s : string) : string :=
match strrchr s c with
| Some (before, _) => before
| None => s
end.

(** Does byte [c] occur in [s]? *)
Fixpoint occurs (c : ascii) (s : string) : bool :=
match s with
| EmptyString => false
| String a t => Ascii.eqb a c || occurs c t
end.

(** Modelled from the spec: [streq] of basics.h, which is not among the
  sources: "exact string match". *)
Definition streq (a b : string) : bool := String.eqb a b.

(** Modelled from the spec: [endswith] of basics.h, which is not among the
  sources: the name "ends in" the suffix. *)
Fixpoint endswith (s suffix : string) : bool :=
String.eqb s suffix ||
match s with
| EmptyString => false
| String _ t => endswith t suffix
end.

(** The C string a buffer starts with: its bytes before the first NUL. *)
Fixpoint c_str (bytes : string) : string :=
  match bytes with
  | EmptyString => EmptyString
  | String a t =>
      if Ascii.eqb a "000" then EmptyString else String a (c_str t)
  end.

End CString.
Import CString.

(* ================================================================== *)
(** * Name normalizer                                                   *)
(* ================================================================== *)

(** The three [strrchr] steps of [image_local_metadata] and
    [image_remote_metadata] (images-list.c, "create debug-tools from
    debug-tools-23.7.x86-64.raw"). *)
Definition normalize_name (filename : string) : string :=
  let n := cut_last "." filename in   (* raw *)
  let n := cut_last "." n in          (* arch *)
  cut_last "-" n.                     (* version *)

(* ================================================================== *)
(** * Data model                                                        *)
(* ================================================================== *)

Definition ENOENT : Z := 2.
Definition EINVAL : Z := 22.
Definition EXIT_FAILURE : Z := 1.
Definition PATH_MAX : Z := 4096.

(** Modelled from the spec: [struct image_deps] of image-deps.h, which is
    not among the sources: the release metadata of one image (section 3,
    ImageDependencyRecord).  The code under study reads [architecture]
    and [sysext_version_id]. *)
Record image_deps : Type := {
  image_name : string;
  sysext_version_id : string;
  sysext_scope : string;
  id : string;
  sysext_level : string;
  version_id : string;
  architecture : string
}.

(** [struct image_entry] as images-list.c and newversion.c use it. *)
Record image_entry : Type := {
  name : string;
  deps : option image_deps;
  local : bool;
  remote : bool;
  installed : bool;
  compatible : bool
}.

(** [calloc(1, sizeof(struct image_entry))] *)
Definition calloc_image_entry : image_entry :=
  {| name := ""; deps := None; local := false; remote := false;
     installed := false; compatible := false |}.

Definition set_name (e : image_entry) (n : string) : image_entry :=
  {| name := n; deps := deps e; local := local e; remote := remote e;
     installed := installed e; compatible := compatible e |}.

Definition set_deps (e : image_entry) (d : option image_deps) : image_entry :=
  {| name := name e; deps := d; local := local e; remote := remote e;
     installed := installed e; compatible := compatible e |}.

Definition set_local (e : image_entry) (b : bool) : image_entry :=
  {| name := name e; deps := deps e; local := b; remote := remote e;
     installed := installed e; compatible := compatible e |}.

Definition set_remote (e : image_entry) (b : bool) : image_entry :=
  {| name := name e; deps := deps e; local := local e; remote := b;
     installed := installed e; compatible := compatible e |}.

(** A NULL-terminated [char **] that may itself be NULL. *)
Definition strv := option (list string).

Definition strv_list (l : strv) : list string :=
  match l with Some xs => xs | None => [] end.

Definition strv_length (l : strv) : nat := List.length (strv_list l).

(** A [char **] array of [malloc]: the slots written so far, from the
    first, and the number of slots before the terminating NULL that
    nothing was written to. *)
Record name_array : Type := { written : list string; unwritten : nat }.

Definition names_of (a : option name_array) : list string :=
  match a with Some a => written a | None => [] end.

(** Directory entries, as [scandir] hands them to the filter. *)
Inductive d_type_t : Type := DT_LNK | DT_REG | DT_DIR | DT_UNKNOWN.

Record dirent : Type := { d_name : string; d_type : d_type_t }.

(* ================================================================== *)
(** * Outcomes and the temporary-file state                             *)
(* ================================================================== *)

Inductive outcome (A : Type) : Type :=
| Ret (a : A)          (* the function returned *)
| Exit (status : Z)    (* exit(status): the process is gone *)
| Fault                (* a null pointer was dereferenced *)
| Undefined.           (* a pointer was read from memory never written *)
Arguments Ret {A} a.
Arguments Exit {A} status.
Arguments Fault {A}.
Arguments Undefined {A}.

(** The names of the temporary files that exist. *)
Definition tmpfs : Type := list string.

Definition M (A : Type) : Type := tmpfs -> outcome A * tmpfs.

Definition ret {A} (a : A) : M A := fun fs => (Ret a, fs).

Definition bind {A B} (m : M A) (k : A -> M B) : M B :=
  fun fs =>
    match m fs with
    | (Ret a, fs') => k a fs'
    | (Exit st, fs') => (Exit st, fs')
    | (Fault, fs') => (Fault, fs')
    | (Undefined, fs') => (Undefined, fs')
    end.

Definition exit {A} (status : Z) : M A := fun fs => (Exit status, fs).

Definition fault {A} : M A := fun fs => (Fault, fs).

Definition undefined {A} : M A := fun fs => (Undefined, fs).

(** Modelled from the spec: [strv_free], [strv_length] and
    [free_image_entry_list] are not among the sources.  A list owns all
    its entries and freeing it frees everything (spec 3): these walk the
    array from its first slot up to the terminating NULL, as
    [free_images_list] of json-common.c does, so that a slot before the
    terminator that was never written is read. *)
Definition walk_array (unwritten : nat) : M unit :=
  match unwritten with
  | O => ret tt
  | S _ => undefined
  end.

Notation "x <- m ;; k" := (bind m (fun x => k))
  (at level 61, m at next level, right associativity).
Notation "' p <- m ;; k" := (bind m (fun p => k))
  (at level 61, p pattern, m at next level, right associativity).

(** [unlink(name)] *)
Definition unlink (fn : string) (fs : tmpfs) : tmpfs :=
  List.remove string_dec fn fs.

(* ================================================================== *)
(** * Collaborators                                                     *)
(* ================================================================== *)

(** What the code calls and these files do not define.  An [errno] is a
    [positive], so that [-errno] is negative. *)
Record world : Type := {
  (** config.h *)
  SYSEXT_STORE_DIR : string;
  (** reading a directory for [scandir]: errno, or every entry *)
  readdir_all : string -> positive + list dirent;
  (** [join_path] then [lstat]: errno, or [st_size] *)
  lstat : string -> string -> positive + Z;
  (** [perror]: the value of errno when it returns, from the value it was
      called with *)
  perror : positive -> positive;
  (** [join_path] then [readlink]: errno, or the link target *)
  readlink : string -> string -> positive + string;
  (** [mkostemp_safe]: the name chosen for the template *)
  mkostemp_safe : string -> tmpfs -> string;
  (** [extract(store, image, fd)]: status and what was written to [fd] *)
  extract : string -> string -> Z * string;
  (** [load_ext_release(image, path, &res)] on the file's content *)
  load_ext_release : string -> string -> Z * option image_deps;
  (** [download(url, file, path, verify)]: status and what was written *)
  download : string -> string -> Z * string;
  (** [load_image_json(fd, path, &images)] on the file's content *)
  load_image_json : string -> Z * option (list image_deps);
  (** [fdopen(fd, "r")] on the named temporary file: errno on failure *)
  fdopen : string -> option positive
}.

(* ================================================================== *)
(** * images-list.c                                                     *)
(* ================================================================== *)

(** [getline] until it returns -1: the lines of a file, each with its
    newline when it has one. *)
Fixpoint read_lines (content : string) : list string :=
  match content with
  | EmptyString => []
  | String c t =>
      if Ascii.eqb c "010" then String c EmptyString :: read_lines t
      else match read_lines t with
           | [] => [String c EmptyString]
           | l :: ls => String c l :: ls
           end
  end.

(** [if (nread && line[nread-1] == '\n') line[nread-1] = '\0';] *)
Fixpoint chomp (line : string) : string :=
  match line with
  | EmptyString => EmptyString
  | String c EmptyString => if Ascii.eqb c "010" then EmptyString else line
  | String c t => String c (chomp t)
  end.

(** [while ( *p == ' ') ++p;] *)
Fixpoint skip_spaces (p : string) : string :=
  match p with
  | String c t => if Ascii.eqb c " " then skip_spaces t else p
  | EmptyString => p
  end.

Definition image_filter (de : dirent) : bool :=
  endswith (d_name de) ".raw" || endswith (d_name de) ".img".

(** [alphasort], in the C locale, where [strcoll] is [strcmp]. *)
Definition alphasort (a b : dirent) : Z := strcmp (d_name a) (d_name b).

Section Sort.
Variable A : Type.
Variable compar : A -> A -> Z.

Fixpoint insert_sorted (x : A) (l : list A) : list A :=
  match l with
  | [] => [x]
  | y :: l' => if compar x y <=? 0 then x :: l else y :: insert_sorted x l'
  end.

(** The [qsort] of [scandir]. *)
Fixpoint sort_by (l : list A) : list A :=
  match l with
  | [] => []
  | x :: l' => insert_sorted x (sort_by l')
  end.
End Sort.
Arguments insert_sorted {A} compar x l.
Arguments sort_by {A} compar l.

Section ImagesList.
Variable w : world.

(** [_cleanup_(unlink_tempfilep) char tmpfn[] = template;
    fd = mkostemp_safe(tmpfn);] and the rest of the function body.  The
    cleanup handler runs when the function returns; it does not run
    when the process ends inside the body. *)
Definition with_tempfile {A} (template : string) (body : string -> M A) : M A :=
  fun fs =>
    let tmpfn := mkostemp_safe w template fs in
    match body tmpfn (tmpfn :: fs) with
    | (Ret a, fs') => (Ret a, unlink tmpfn fs')
    | (Exit st, fs') => (Exit st, fs')
    | (Fault, fs') => (Fault, fs')
    | (Undefined, fs') => (Undefined, fs')
    end.

Definition readlink_malloc (path nm : string) : M (Z * option string) :=
  match lstat w path nm with
  | inl errno =>
      (* perror("lstat"); return -errno; *)
      ret (- Zpos (perror w errno), None)
  | inr st_size =>
      let bufsiz := if st_size =? 0 then PATH_MAX else st_size + 1 in
      match readlink w path nm with
      | inl errno => ret (- Zpos errno, None)
      | inr target =>
          let nbytes := Z.min (Z.of_nat (String.length target)) bufsiz in
          if nbytes =? bufsiz
          then exit EXIT_FAILURE   (* "Returned buffer may have been truncated" *)
          else ret (0, Some target)
      end
  end.

Definition scandir (path : string) (filter : dirent -> bool)
           (compar : dirent -> dirent -> Z) : positive + list dirent :=
  match readdir_all w path with
  | inl errno => inl errno
  | inr entries => inr (sort_by compar (List.filter filter entries))
  end.

(** The [for] loop of [discover_images]; [result] holds the slots
    written so far and [de] the entries still to do.  On [return r] the
    slot of the current entry and those after it stay unwritten. *)
Fixpoint discover_loop (path : string) (de : list dirent)
         (result : list string) : M (Z * name_array) :=
  match de with
  | [] => ret (0, {| written := result; unwritten := O |})
  | d :: rest =>
      match d_type d with
      | DT_LNK =>
          '(r, fn) <- readlink_malloc path (d_name d) ;;
          if r <? 0
          then ret (r, {| written := result; unwritten := List.length de |})
          else match fn with
               | None => fault
               | Some fn =>
                   match strrchr fn "/" with
                   | Some (_, p) => discover_loop path rest (result ++ [p])
                   | None => discover_loop path rest (result ++ [fn])
                   end
               end
      | _ => discover_loop path rest (result ++ [d_name d])
      end
  end.

Definition discover_images (path : string) : M (Z * option name_array) :=
  match scandir path image_filter alphasort with
  | inl errno => ret (- Zpos errno, None)
  | inr de =>
      if (0 <? Z.of_nat (List.length de)) then
        '(r, result) <- discover_loop path de [] ;;
        ret (r, Some result)
      else ret (0, None)
  end.

Definition image_read_metadata (img : string) : M (Z * option image_deps) :=
  with_tempfile "/tmp/sysext-image-extrelease.XXXXXX" (fun tmpfn =>
    let '(r, content) := extract w (SYSEXT_STORE_DIR w) img in
    if r <? 0 then ret (r, None)
    else if 0 <? r then ret (- EINVAL, None)
    else
      let '(r, image) := load_ext_release w img content in
      if r <? 0 then ret (r, None)
      else ret (0, image)).

Definition image_json_from_url (url img : string) : M (Z * option image_deps) :=
  with_tempfile "/tmp/sysext-image-json.XXXXXX" (fun tmpfn =>
    (* jsonfn = malloc(...) is written through unchecked; the allocation
       succeeds, as every allocation here *)
    let jsonfn := (img ++ ".json")%string in
    let '(r, content) := download w url jsonfn in
    if r <? 0 then ret (r, None)
    else
      let '(r, images) := load_image_json w content in
      if r <? 0 then ret (r, None)
      else match images with
           | None | Some [] => ret (- ENOENT, None)
           | Some [d] => ret (0, Some d)
           | Some (_ :: _ :: _) =>
               exit EXIT_FAILURE   (* "More than one entry found" *)
           end).

(** The [while (getline ...)] loop of [image_list_from_url]; [lines] are
    the buffers [getline] filled.  [endswith], [strchr] and [strdup] see
    the C string the buffer starts with. *)
Fixpoint manifest_loop (lines : list string) (result : list string)
  : M (list string) :=
  match lines with
  | [] => ret result
  | raw :: rest =>
      let line := c_str (chomp raw) in
      if endswith line ".raw" || endswith line ".img" then
        match strchr line " " with
        | None => fault      (* [*p] with [p == NULL] *)
        | Some p => manifest_loop rest (result ++ [skip_spaces p])
        end
      else manifest_loop rest result
  end.

Definition image_list_from_url (url : string) : M (Z * strv) :=
  with_tempfile "/tmp/sysext-SHA256SUMS.XXXXXX" (fun tmpfn =>
    let '(r, content) := download w url "SHA256SUMS" in
    if r <? 0 then ret (r, None)
    else match fdopen w tmpfn with
         | Some errno => ret (- Zpos errno, None)
         | None =>
             result <- manifest_loop (read_lines content) [] ;;
             ret (0, Some result)
         end).

(** What a metadata call leaves in its return value, [*res] and [*nr];
    [None] is an output the call did not write. *)
Definition metadata_result : Type :=
  (Z * option (list image_entry) * option nat)%type.

(** The [for] loop of [image_remote_metadata]: the value of an early
    [return], with the number of slots of [images] after the current one,
    to which nothing was written; or the array once every name is done. *)
Fixpoint remote_loop (url : string) (lst : list string)
         (images : list image_entry) : M (Z * nat + list image_entry) :=
  match lst with
  | [] => ret (inr images)
  | fn :: rest =>
      let e := set_name calloc_image_entry fn in
      let e := set_remote e true in
      let e := set_name e (normalize_name (name e)) in
      '(r, d) <- image_json_from_url url fn ;;
      let e := set_deps e d in
      if r <? 0 then ret (inl (- r, List.length rest))
      else remote_loop url rest (images ++ [e])
  end.

Definition image_remote_metadata (url : string) : M metadata_result :=
  '(r, lst) <- image_list_from_url url ;;
  if r <? 0 then ret (- r, None, None)
  else
    let n := strv_length lst in
    if (0 <? Z.of_nat n) then
      done <- remote_loop url (strv_list lst) [] ;;
      match done with
      | inl (r, slots) =>
          (* _cleanup_(free_image_entry_list) images: malloc'ed, and only
             images[n] and the slots up to the current one were written *)
          'tt <- walk_array slots ;;
          ret (r, None, None)
      | inr images => ret (0, Some images, Some n)
      end
    else ret (0, None, Some n).

(** The [for] loop of [image_local_metadata]. *)
Fixpoint local_loop (lst : list string) (images : list image_entry)
  : M (Z * nat + list image_entry) :=
  match lst with
  | [] => ret (inr images)
  | fn :: rest =>
      let e := set_name calloc_image_entry fn in
      let e := set_name e (normalize_name (name e)) in
      let e := set_local e true in
      '(r, d) <- image_read_metadata fn ;;
      let e := set_deps e d in
      if r <? 0 then ret (inl (r, List.length rest))
      else local_loop rest (images ++ [e])
  end.

Definition unwritten_of (a : option name_array) : nat :=
  match a with Some a => unwritten a | None => O end.

Definition image_local_metadata (store : string) : M metadata_result :=
  '(r, lst) <- discover_images store ;;
  if r <? 0 then
    (* _cleanup_strv_free_ list *)
    'tt <- walk_array (unwritten_of lst) ;;
    ret (- r, None, None)
  else
    (* strv_length(list) *)
    'tt <- walk_array (unwritten_of lst) ;;
    let n := List.length (names_of lst) in
    if (0 <? Z.of_nat n) then
      done <- local_loop (names_of lst) [] ;;
      match done with
      | inl (r, slots) =>
          (* _cleanup_(free_image_entry_list) images *)
          'tt <- walk_array slots ;;
          ret (r, None, None)
      | inr images => ret (0, Some images, Some n)
      end
    else ret (0, None, Some n).

End ImagesList.

(* ================================================================== *)
(** * newversion.c                                                      *)
(* ================================================================== *)

Definition version_cmp (s1 s2 : string) : Z :=
  strcmp s1 s2. (* XXX this needs proper version number parsing *)

(** The entry [check_if_newer] builds for [*update]: [calloc], then the
    name, the moved [deps] and three of the flags of [new]. *)
Definition update_of (new : image_entry) : image_entry :=
  {| name := name new; deps := deps new; local := local new;
     remote := false; installed := installed new;
     compatible := compatible new |}.

(** [check_if_newer(old, new, update)]: the return value, [new] after the
    call (its [deps] are moved out by [TAKE_PTR] when it is taken) and
    [*update] after the call. *)
Definition check_if_newer (old new : image_entry) (update : option image_entry)
  : M (Z * image_entry * option image_entry) :=
  match deps old, deps new with
  | Some old_deps, Some new_deps =>
      if streq (architecture old_deps) (architecture new_deps)
         && (version_cmp (sysext_version_id old_deps)
                         (sysext_version_id new_deps) <? 0)
      then
        let take := ret (0, set_deps new None, Some (update_of new)) in
        match update with
        | Some u =>
            match deps u with
            | Some u_deps =>
                (* don't update with older version *)
                if version_cmp (sysext_version_id u_deps)
                               (sysext_version_id new_deps) >=? 0
                then ret (0, new, update)
                else take
            | None => fault
            end
        | None => take
        end
      else ret (0, new, update)
  | _, _ => fault
  end.

(** [for (size_t i = 0; i < n; i++) check_if_newer(curr, images[i], &update);]
    [images] is the array from index [i] on; past its end is the
    terminating NULL. *)
Fixpoint scan_images (curr : image_entry) (images : list image_entry)
         (n : nat) (update : option image_entry) : M (option image_entry) :=
  match n with
  | O => ret update
  | S n' =>
      match images with
      | [] => fault
      | e :: rest =>
          '(_, _, update') <- check_if_newer curr e update ;;
          scan_images curr rest n' update'
      end
  end.

Definition images_of (res : option (list image_entry)) : list image_entry :=
  match res with Some l => l | None => [] end.

Definition count_of (nr : option nat) : nat :=
  match nr with Some n => n | None => O end.

Section UpdateSelector.
(** [get_latest_version] calls the two metadata functions with a fourth
    argument, [curr->name], that the definitions in images-list.c do not
    take: the callees are variables here, and [get_latest_version_3]
    below passes the definitions of images-list.c. *)
Variable store_dir : string.
Variable remote_metadata : string -> string -> M metadata_result.
Variable local_metadata : string -> string -> M metadata_result.

Definition get_latest_version (curr : image_entry) (url : option string)
  : M (Z * option image_entry) :=
  '(r, images_remote, n_remote) <-
      match url with
      | Some u => remote_metadata u (name curr)
      | None => ret (0, None, None)
      end ;;
  if r <? 0 then ret (r, None)
  else
    update <- scan_images curr (images_of images_remote)
                          (count_of n_remote) None ;;
    (* now do the same with local images *)
    '(r, images_local, n_local) <- local_metadata store_dir (name curr) ;;
    if r <? 0 then ret (r, None)
    else
      update <- scan_images curr (images_of images_local)
                            (count_of n_local) update ;;
      ret (0, update).
End UpdateSelector.

(** Modelled from the spec: the four-argument [image_remote_metadata] and
    [image_local_metadata] that newversion.c calls are not among the
    sources.  By the spec (4.7, steps 1 and 2, and the interfaces of
    section 6) the selector resolves the remote list from the URL and the
    local list from the store, which is what the three-argument functions
    of images-list.c do: [get_latest_version] over those, the name of the
    installed entry being passed and not used. *)
Definition get_latest_version_3 (w : world) (curr : image_entry)
           (url : option string) : M (Z * option image_entry) :=
  get_latest_version (SYSEXT_STORE_DIR w)
                     (fun u _ => image_remote_metadata w u)
                     (fun store _ => image_local_metadata w store)
                     curr url.

(* ================================================================== *)
(** * json-common.c                                                     *)
(* ================================================================== *)

Module JsonCommon.

(** The shape of an [sd_json_variant], as far as the loader looks. *)
#[warnings="-register-all"]
Inductive sd_json_variant : Type :=
| JString (s : string)
| JObject (fields : list (string * sd_json_variant))
| JArray (elements : list sd_json_variant)
| JOther.

(** The [struct image_entry] of json-common.c. *)
Record image_entry : Type := {
  image_name : option string;
  sysext_version_id : option string;
  sysext_scope : option string;
  id : option string;
  sysext_level : option string;
  version_id : option string;
  architecture : option string;
  sysext : option sd_json_variant
}.

Definition calloc_image_entry : image_entry :=
  {| image_name := None; sysext_version_id := None; sysext_scope := None;
     id := None; sysext_level := None; version_id := None;
     architecture := None; sysext := None |}.

Definition unref_sysext (e : image_entry) : image_entry :=
  {| image_name := image_name e; sysext_version_id := sysext_version_id e;
     sysext_scope := sysext_scope e; id := id e;
     sysext_level := sysext_level e; version_id := version_id e;
     architecture := architecture e; sysext := None |}.

(** The variant functions accept NULL. *)
Definition sd_json_variant_is_array (v : option sd_json_variant) : bool :=
  match v with Some (JArray _) => true | _ => false end.

Definition sd_json_variant_is_object (v : option sd_json_variant) : bool :=
  match v with Some (JObject _) => true | _ => false end.

Definition sd_json_variant_elements (v : option sd_json_variant)
  : list sd_json_variant :=
  match v with Some (JArray l) => l | _ => [] end.

Section Loader.
(** libsystemd: [sd_json_parse_file] on a path, and [sd_json_dispatch]
    with the dispatch table and the flags of [parse_image_entry]. *)
Variable sd_json_parse_file : string -> Z * option sd_json_variant.
Variable sd_json_dispatch :
  option sd_json_variant -> image_entry -> Z * image_entry.

Definition parse_image_entry (json : option sd_json_variant)
           (e : image_entry) : Z * image_entry :=
  let '(r, e) := sd_json_dispatch json e in
  if r <? 0 then (- r, e)
  else
    let '(r, e) := sd_json_dispatch (sysext e) e in
    if r <? 0 then (- r, e)
    else (0, unref_sysext e).

(** The [for] loop of [load_image_entries]: the return value and the
    entries of [*images] before its first NULL. *)
Fixpoint load_loop (elements : list sd_json_variant)
         (images : list image_entry) : Z * list image_entry :=
  match elements with
  | [] => (0, images)
  | e :: rest =>
      if negb (sd_json_variant_is_object (Some e)) then (EINVAL, images)
      else
        let '(r, entry) := parse_image_entry (Some e) calloc_image_entry in
        if r <? 0 then (- r, images ++ [entry])
        else load_loop rest (images ++ [entry])
  end.

Definition load_image_entries (path : string)
  : Z * option (list image_entry) :=
  match sd_json_parse_file path with
  | (r, json) =>
      if r <? 0 then (- r, None)
      else if sd_json_variant_is_array json then
        let '(r, images) :=
          load_loop (sd_json_variant_elements json) [] in
        (r, Some images)
      else
        let '(r, entry) := parse_image_entry json calloc_image_entry in
        (r, Some [entry])
  end.
End Loader.

End JsonCommon.

(* ================================================================== *)
(** * The properties, as predicates                                     *)
(* ================================================================== *)



(** A candidate qualifies as an update of the installed [cd]: same
    architecture, strictly greater version. *)
Definition qualifies (cd : image_deps) (c : image_entry) : Prop :=
  exists d, deps c = Some d /\
            architecture d = architecture cd /\
            version_cmp (sysext_version_id cd) (sysext_version_id d) < 0.

(** The version of an entry that has its metadata. *)
Definition version_of (e : image_entry) : string :=
  match deps e with Some d => sysext_version_id d | None => "" end.

(** The outcome of the selection over the candidates [seen], in scan
    order: nothing when no candidate qualifies; otherwise the entry built
    from a qualifying candidate that is strictly newer than every
    qualifying candidate before it and not older than any after it. *)
Definition selected (cd : image_deps) (seen : list image_entry)
           (update : option image_entry) : Prop :=
  match update with
  | None => forall c, In c seen -> ~ qualifies cd c
  | Some u =>
      exists i c,
        nth_error seen i = Some c /\ qualifies cd c /\ u = update_of c /\
        (forall j c', (j < i)%nat -> nth_error seen j = Some c' ->
                      qualifies cd c' ->
                      version_cmp (version_of c') (version_of c) < 0) /\
        (forall j c', (i < j)%nat -> nth_error seen j = Some c' ->
                      qualifies cd c' ->
                      version_cmp (version_of c) (version_of c') >= 0)
  end.

(** The filename field of a manifest line, in the words of the spec: skip
    the hash token, then the whole run of spaces after it. *)
Fixpoint skip_token (line : string) : string :=
  match line with
  | String c t => if Ascii.eqb c " " then line else skip_token t
  | EmptyString => line
  end.

Definition filename_field (line : string) : string :=
  skip_spaces (skip_token line).

Definition is_image_name (s : string) : bool :=
  endswith s ".raw" || endswith s ".img".

(** The manifest as the loop sees it: for each buffer [getline] filled,
    the C string it starts with once the newline is cut. *)
Definition manifest_lines (content : string) : list string :=
  List.map (fun raw => c_str (chomp raw)) (read_lines content).





(** Extraction or parsing of the local image [img] fails. *)
Definition local_metadata_fails (w : world) (img : string) : Prop :=
  let '(r, content) := extract w (SYSEXT_STORE_DIR w) img in
  r <> 0 \/ fst (load_ext_release w img content) < 0.

(** Download or parsing of the JSON document of [img] fails, or the
    document holds no record. *)
Definition remote_metadata_fails (w : world) (url img : string) : Prop :=
  let '(r, content) := download w url (img ++ ".json")%string in
  r < 0 \/
  let '(r', images) := load_image_json w content in
  r' < 0 \/ images = None \/ images = Some [].

(* ================================================================== *)
(** * Concrete inputs                                                   *)
(* ================================================================== *)

Module Fixtures.

Definition deps_of (version arch : string) : image_deps :=
  {| image_name := ""; sysext_version_id := version; sysext_scope := "system";
     id := "opensuse"; sysext_level := ""; version_id := "1";
     architecture := arch |}.

Definition entry_of (nm version arch : string) : image_entry :=
  {| name := nm; deps := Some (deps_of version arch); local := true;
     remote := false; installed := false; compatible := false |}.

(** A world with the directory [entries] as the store, where every
    extraction succeeds, [download] answers by [dl] and the JSON loader
    by [json]. *)
Definition world_of (entries : list dirent)
           (rel : string -> string -> Z * option image_deps)
           (dl : string -> string -> Z * string)
           (json : string -> Z * option (list image_deps)) : world :=
  {| SYSEXT_STORE_DIR := "/var/lib/sysext-store";
     readdir_all := fun _ => inr entries;
     lstat := fun _ _ => inr 26;
     perror := fun errno => errno;
     readlink := fun _ _ => inr "/store/real-1.0.x86_64.raw";
     mkostemp_safe := fun template _ => (cut_last "." template ++ ".k3Jx9q")%string;
     extract := fun _ _ => (0, "");
     load_ext_release := rel;
     download := dl;
     load_image_json := json;
     fdopen := fun _ => None |}.

Definition no_release : string -> string -> Z * option image_deps :=
  fun _ _ => (0, Some (deps_of "1.0" "x86_64")).

(** A world whose every download succeeds with [content], and where the
    JSON loader finds [records] in every document. *)
Definition remote_world (content : string) (records : list image_deps)
  : world :=
  world_of [] no_release (fun _ _ => (0, content))
           (fun _ => (0, Some records)).

Definition manifest_good : string :=
  "deadbeef  foo-1.0.x86_64.raw" ++ String "010"
  ("cafe README.txt" ++ String "010"
  ("0123     bar-2.1.aarch64.img" ++ String "010" "")).

Definition manifest_bare : string :=
  "deadbeef  foo-1.0.x86_64.raw" ++ String "010"
  ("bar-2.1.aarch64.img" ++ String "010" "").

(** The directory of the specification's example, in the order the
    file system happens to list it. *)
Definition spec_directory : list dirent :=
  [ {| d_name := "b.raw"; d_type := DT_REG |};
    {| d_name := "z.raw"; d_type := DT_LNK |};
    {| d_name := "c.txt"; d_type := DT_REG |};
    {| d_name := "a.img"; d_type := DT_REG |} ].

(** A directory whose first entry by name is a symbolic link. *)
Definition link_first_directory : list dirent :=
  [ {| d_name := "b.raw"; d_type := DT_REG |};
    {| d_name := "a.raw"; d_type := DT_LNK |} ].

Definition store_world (entries : list dirent) : world :=
  world_of entries no_release (fun _ _ => (-2, "")) (fun _ => (0, None)).


(** What [image_local_metadata] lists for [spec_directory]. *)
Definition spec_entries : list image_entry :=
  [ entry_of "a" "1.0" "x86_64";
    entry_of "b" "1.0" "x86_64";
    entry_of "real" "1.0" "x86_64" ].

(** A world whose store directory cannot be read (ENOENT) and whose
    downloads fail. *)
Definition unreadable_world : world :=
  {| SYSEXT_STORE_DIR := "/var/lib/sysext-store";
     readdir_all := fun _ => inl 2%positive;
     lstat := fun _ _ => inl 2%positive;
     perror := fun errno => errno;
     readlink := fun _ _ => inl 2%positive;
     mkostemp_safe := fun template _ => (cut_last "." template ++ ".k3Jx9q")%string;
     extract := fun _ _ => (0, "");
     load_ext_release := no_release;
     download := fun _ _ => (-2, "");
     load_image_json := fun _ => (0, None);
     fdopen := fun _ => None |}.

(** A JSON file that parses to an array of two objects, and a dispatch
    that rejects every object with [-EINVAL]. *)
Definition parse_two_objects
  : string -> Z * option JsonCommon.sd_json_variant :=
  fun _ => (0, Some (JsonCommon.JArray
                       [JsonCommon.JObject []; JsonCommon.JObject []])).

Definition dispatch_rejects
  : option JsonCommon.sd_json_variant -> JsonCommon.image_entry ->
    Z * JsonCommon.image_entry :=
  fun _ e => (-22, e).

(** A metadata call that succeeds with the array [l]. *)
Definition listing (l : list image_entry)
  : string -> string -> M metadata_result :=
  fun _ _ => ret (0, (match l with [] => None | _ => Some l end),
                  Some (List.length l)).

Definition installed_1_0 : image_entry := entry_of "debug-tools" "1.0" "x86_64".

Definition remote_1 : list image_entry :=
  [ entry_of "debug-tools" "1.1" "x86_64";
    entry_of "debug-tools" "1.3" "aarch64" ].

Definition local_1 : list image_entry :=
  [ entry_of "debug-tools" "1.2" "x86_64";
    entry_of "debug-tools-copy" "1.2" "x86_64";
    entry_of "debug-tools" "0.9" "x86_64" ].

Definition installed_9 : image_entry := entry_of "debug-tools" "9" "x86_64".

Definition candidates_10_2 : list image_entry :=
  [ entry_of "debug-tools" "10" "x86_64";
    entry_of "debug-tools" "2" "x86_64" ].

End Fixtures.

(* ================================================================== *)
(** * Further predicates and inputs                                     *)
(* ================================================================== *)

(** Run from [fs], the call [m] leaves the temporary files as they were
    whenever it returns. *)
Definition returns_clean {A : Type} (m : M A) (fs : tmpfs) : Prop :=
  forall a fs', m fs = (Ret a, fs') -> fs' = fs.

(** [p] is the beginning of [s]. *)
Definition starts_with (s p : string) : Prop :=
  exists rest, s = (p ++ rest)%string.

(** The entry [parse_image_entry] leaves for the array element [e]. *)
Definition parsed_entry
           (dispatch : option JsonCommon.sd_json_variant ->
                       JsonCommon.image_entry -> Z * JsonCommon.image_entry)
           (e : JsonCommon.sd_json_variant) : JsonCommon.image_entry :=
  snd (JsonCommon.parse_image_entry dispatch (Some e)
                                    JsonCommon.calloc_image_entry).

(** The status [r] is the one [readlink_malloc] returned for one of the
    entries of [entries] that the scan reports as symbolic links. *)
Definition link_error (w : world) (path : string) (entries : list dirent)
           (r : Z) : Prop :=
  exists d fn fs fs',
    In d entries /\ d_type d = DT_LNK /\
    readlink_malloc w path (d_name d) fs = (Ret (r, fn), fs').

(** The outputs of a metadata listing that returned [r]: the count is the
    length of the array, it is written exactly when [r] is 0, and the
    array is written only when it is not empty. *)
Definition listing_shape (r : Z) (res : option (list image_entry))
           (nr : option nat) : Prop :=
  count_of nr = List.length (images_of res) /\
  (r = 0 <-> nr <> None) /\
  (res = None <-> images_of res = []).

(** An update that [check_if_newer] built: it has its metadata and its
    [remote] flag is clear. *)
Definition built_update (update : option image_entry) : Prop :=
  forall u, update = Some u -> remote u = false /\ deps u <> None.

(** A name worth listing: it ends in an image suffix, holds no newline,
    is not empty and does not start with a space. *)
Definition image_name_ok (n : string) : Prop :=
  is_image_name n = true /\ occurs "010" n = false /\
  match n with String c _ => c <> " "%char | EmptyString => False end.

(** The JSON document of [img] downloads, parses and holds exactly one
    record. *)
Definition one_record (w : world) (url img : string) : Prop :=
  exists r content r' d,
    download w url (img ++ ".json")%string = (r, content) /\ 0 <= r /\
    load_image_json w content = (r', Some [d]) /\ 0 <= r'.

(** The JSON document of [img] downloads, parses and holds two records or
    more. *)
Definition many_records (w : world) (url img : string) : Prop :=
  exists r content r' d1 d2 rest,
    download w url (img ++ ".json")%string = (r, content) /\ 0 <= r /\
    load_image_json w content = (r', Some (d1 :: d2 :: rest)) /\ 0 <= r'.

(** What the early [return] of a metadata listing leaves when its loop
    stops at an image with the images [after] still to do: the [images]
    array was malloc'ed, only its terminator and the slots up to the
    current one were written, and [free_image_entry_list] walks it.  The
    call returns [r] with nothing stored when no slot is left, and reads
    unwritten memory when one is. *)
Definition early_return (r : Z) (after : list string)
  : outcome metadata_result :=
  match after with
  | [] => Ret (r, None, None)
  | _ :: _ => Undefined
  end.

Module Scenarios.

(** The end-to-end example: 23.7 installed, 23.8 in the store. *)
Definition store_23_8 : list dirent :=
  [ {| d_name := "debug-tools-23.8.x86_64.raw"; d_type := DT_REG |} ].

Definition world_23_8 : world :=
  Fixtures.world_of store_23_8
    (fun _ _ => (0, Some (Fixtures.deps_of "23.8" "x86_64")))
    (fun _ _ => (-2, "")) (fun _ => (0, None)).

Definition installed_23_7 : image_entry :=
  Fixtures.entry_of "debug-tools" "23.7" "x86_64".

(** A store with a symbolic link whose target cannot be read (EACCES). *)
Definition world_broken_link : world :=
  {| SYSEXT_STORE_DIR := "/var/lib/sysext-store";
     readdir_all := fun _ => inr Fixtures.spec_directory;
     lstat := fun _ _ => inr 26;
     perror := fun errno => errno;
     readlink := fun _ _ => inl 13%positive;
     mkostemp_safe := fun template _ => (cut_last "." template ++ ".k3Jx9q")%string;
     extract := fun _ _ => (0, "");
     load_ext_release := Fixtures.no_release;
     download := fun _ _ => (-2, "");
     load_image_json := fun _ => (0, None);
     fdopen := fun _ => None |}.

(** A store whose image cannot be extracted: systemd-dissect fails (1). *)
Definition world_bad_image : world :=
  {| SYSEXT_STORE_DIR := "/var/lib/sysext-store";
     readdir_all := fun _ => inr store_23_8;
     lstat := fun _ _ => inr 26;
     perror := fun errno => errno;
     readlink := fun _ _ => inr "/store/real-1.0.x86_64.raw";
     mkostemp_safe := fun template _ => (cut_last "." template ++ ".k3Jx9q")%string;
     extract := fun _ _ => (1, "");
     load_ext_release := Fixtures.no_release;
     download := fun _ _ => (-2, "");
     load_image_json := fun _ => (0, None);
     fdopen := fun _ => None |}.

(** A JSON document: two objects, then a string, then an object. *)
Definition parse_mixed_array
  : string -> Z * option JsonCommon.sd_json_variant :=
  fun _ => (0, Some (JsonCommon.JArray
                       [JsonCommon.JObject []; JsonCommon.JObject [];
                        JsonCommon.JString "x"; JsonCommon.JObject []])).

(** A remote index with two images, where every JSON document holds one
    record for each of two architectures. *)
Definition world_two_architectures : world :=
  Fixtures.remote_world Fixtures.manifest_good
    [Fixtures.deps_of "1.0" "x86_64"; Fixtures.deps_of "1.0" "aarch64"].


(** A store with a symbolic link that [lstat] cannot find (ENOENT), where
    [perror] leaves EINVAL in errno. *)
Definition world_lost_link : world :=
  {| SYSEXT_STORE_DIR := "/var/lib/sysext-store";
     readdir_all := fun _ => inr Fixtures.spec_directory;
     lstat := fun _ _ => inl 2%positive;
     perror := fun _ => 22%positive;
     readlink := fun _ _ => inl 2%positive;
     mkostemp_safe := fun template _ => (cut_last "." template ++ ".k3Jx9q")%string;
     extract := fun _ _ => (0, "");
     load_ext_release := Fixtures.no_release;
     download := fun _ _ => (-2, "");
     load_image_json := fun _ => (0, None);
     fdopen := fun _ => None |}.

(** A store of three images, the second of which cannot be extracted. *)
Definition store_three : list dirent :=
  [ {| d_name := "a-1.0.x86_64.raw"; d_type := DT_REG |};
    {| d_name := "b-1.0.x86_64.raw"; d_type := DT_REG |};
    {| d_name := "c-1.0.x86_64.raw"; d_type := DT_REG |} ].

Definition world_second_bad : world :=
  {| SYSEXT_STORE_DIR := "/var/lib/sysext-store";
     readdir_all := fun _ => inr store_three;
     lstat := fun _ _ => inr 26;
     perror := fun errno => errno;
     readlink := fun _ _ => inr "/store/real-1.0.x86_64.raw";
     mkostemp_safe := fun template _ => (cut_last "." template ++ ".k3Jx9q")%string;
     extract := fun _ img => if String.eqb img "b-1.0.x86_64.raw"
                             then (-5, "") else (0, "");
     load_ext_release := Fixtures.no_release;
     download := fun _ _ => (-2, "");
     load_image_json := fun _ => (0, None);
     fdopen := fun _ => None |}.

(** A manifest with a NUL byte in two of its lines. *)
Definition manifest_nul : string :=
  "abc foo.raw" ++ String "000" ("junk" ++ String "010"
  ("a" ++ String "000" ("b.raw" ++ String "010" ""))).

End Scenarios.

(* ================================================================== *)
(** * Strings: lemmas                                                   *)
(* ================================================================== *)

Section StringFacts.

Lemma append_assoc (a b c : string) :
  ((a ++ b) ++ c)%string = (a ++ (b ++ c))%string.
Proof. induction a as [|x a IH]; simpl; [reflexivity | now rewrite IH]. Qed.

Lemma append_nil_r (a : string) : (a ++ "")%string = a.
Proof. induction a as [|x a IH]; simpl; [reflexivity | now rewrite IH]. Qed.

Lemma occurs_append (c : ascii) (a b : string) :
  occurs c (a ++ b)%string = occurs c a || occurs c b.
Proof.
  induction a as [|x a IH]; simpl; [reflexivity|].
  rewrite IH. now rewrite orb_assoc.
Qed.

Lemma strrchr_none (c : ascii) (s : string) :
  strrchr s c = None <-> occurs c s = false.
Proof.
  induction s as [|a t IH]; simpl; [tauto|].
  destruct (strrchr t c) as [[b r]|].
  - split; [discriminate|].
    intros H. apply orb_false_iff in H. destruct H as [_ H].
    apply IH in H. discriminate.
  - destruct (Ascii.eqb a c); simpl.
    + split; discriminate.
    + split; intros _; [now apply IH | reflexivity].
Qed.

(** [strrchr] cuts at an occurrence of [c] with none after it. *)
Lemma strrchr_some (c : ascii) (s before after : string) :
  strrchr s c = Some (before, after) ->
  s = (before ++ String c after)%string /\ occurs c after = false.
Proof.
  revert before after.
  induction s as [|a t IH]; simpl; intros before after H; [discriminate|].
  destruct (strrchr t c) as [[b r]|] eqn:E.
  - inversion H; subst. destruct (IH _ _ eq_refl) as [-> Hr].
    split; [reflexivity | exact Hr].
  - destruct (Ascii.eqb_spec a c) as [->|_]; [|discriminate].
    inversion H; subst. split; [reflexivity|].
    now apply strrchr_none.
Qed.

Lemma strrchr_append (c : ascii) (front seg : string) :
  occurs c seg = false ->
  strrchr (front ++ String c seg) c = Some (front, seg).
Proof.
  intros Hseg. induction front as [|a t IH]; simpl.
  - apply strrchr_none in Hseg. rewrite Hseg.
    now rewrite Ascii.eqb_refl.
  - now rewrite IH.
Qed.

Lemma cut_last_absent (c : ascii) (s : string) :
  occurs c s = false -> cut_last c s = s.
Proof.
  intros H. unfold cut_last. apply strrchr_none in H. now rewrite H.
Qed.

Lemma cut_last_append (c : ascii) (front seg : string) :
  occurs c seg = false -> cut_last c (front ++ String c seg) = front.
Proof.
  intros H. unfold cut_last. now rewrite strrchr_append.
Qed.

Lemma cut_last_present (c : ascii) (s : string) :
  occurs c s = true ->
  exists seg, occurs c seg = false /\
              s = (cut_last c s ++ String c seg)%string.
Proof.
  intros H. unfold cut_last.
  destruct (strrchr s c) as [[b r]|] eqn:E.
  - apply strrchr_some in E. destruct E as [E1 E2]. now exists r.
  - apply strrchr_none in E. congruence.
Qed.


Lemma endswith_cons (a : ascii) (t suffix : string) :
  endswith (String a t) suffix
  = String.eqb (String a t) suffix || endswith t suffix.
Proof. reflexivity. Qed.


End StringFacts.

(* ================================================================== *)
(** * Name normalizer: properties                                       *)
(* ================================================================== *)

Example normalize_debug_tools :
  normalize_name "debug-tools-23.7.x86-64.raw" = "debug-tools".
Proof. reflexivity. Qed.

Example normalize_fragile :
  normalize_name "my-tool-rc-1.0.x86_64.raw" = "my-tool-rc".
Proof. reflexivity. Qed.

(** C6, as the specification states it, fails: with base [tool], which has
    no '-' and no '.', version [1-rc1] and architecture [x86_64], the
    normalizer yields [tool-1], not [tool]. *)
Lemma normalize_name_version_with_dash :
  occurs "-" "tool" = false /\ occurs "." "tool" = false /\
  normalize_name ("tool" ++ "-" ++ "1-rc1" ++ "." ++ "x86_64" ++ ".raw")
    = "tool-1" /\
  normalize_name ("tool" ++ "-" ++ "1-rc1" ++ "." ++ "x86_64" ++ ".raw")
    <> "tool".
Proof. repeat split; try reflexivity. discriminate. Qed.

(** C6, amended.  The normalizer cuts at the last '.', then at the last
    '.' again, then at the last '-'; a cut removes the separator and the
    separator-free segment after it, and leaves the name alone when the
    separator is absent.  For every name [base-version.arch.raw] whose
    [version] has no '-' and whose [arch] has no '.', the result is
    [base]; and [noversion.raw] gives [noversion]. *)
Theorem normalize_name_spec :
  (forall f, normalize_name f = cut_last "-" (cut_last "." (cut_last "." f))) /\
  (forall c s, occurs c s = false -> cut_last c s = s) /\
  (forall c s, occurs c s = true ->
     exists seg, occurs c seg = false /\
                 s = (cut_last c s ++ String c seg)%string) /\
  (forall base version arch,
     occurs "-" version = false -> occurs "." arch = false ->
     normalize_name (base ++ "-" ++ version ++ "." ++ arch ++ ".raw") = base) /\
  normalize_name "noversion.raw" = "noversion".
Proof.
  split; [reflexivity|].
  split; [exact cut_last_absent|].
  split; [exact cut_last_present|].
  split; [|reflexivity].
  intros base version arch Hv Ha. unfold normalize_name.
  change (base ++ "-" ++ version ++ "." ++ arch ++ ".raw")%string
    with (base ++ String "-" (version ++ String "." (arch ++ String "." "raw")))%string.
  assert (E1 : (base ++ String "-" (version ++ String "." (arch ++ String "." "raw")))%string
               = ((base ++ String "-" (version ++ String "." arch)) ++ String "." "raw")%string).
  { rewrite append_assoc. simpl. rewrite append_assoc. reflexivity. }
  rewrite E1, cut_last_append by reflexivity.
  assert (E2 : (base ++ String "-" (version ++ String "." arch))%string
               = ((base ++ String "-" version) ++ String "." arch)%string).
  { rewrite append_assoc. reflexivity. }
  rewrite E2, cut_last_append by exact Ha.
  now apply cut_last_append.
Qed.

Lemma normalize_name_spec_witness :
  normalize_name ("debug-tools" ++ "-" ++ "23.7" ++ "." ++ "x86-64" ++ ".raw")
    = "debug-tools".
Proof.
  apply (proj1 (proj2 (proj2 (proj2 normalize_name_spec)))); reflexivity.
Defined.

(* ================================================================== *)
(** * The version comparator is a total preorder                        *)
(* ================================================================== *)

Section StrcmpFacts.

Lemma byte_range (c : ascii) : 0 <= byte c < 256.
Proof.
  unfold byte. pose proof (N_ascii_bounded c) as H. lia.
Qed.

Lemma byte_inj (a b : ascii) : byte a = byte b -> a = b.
Proof.
  unfold byte. intros H. apply N2Z.inj in H.
  rewrite <- (ascii_N_embedding a), <- (ascii_N_embedding b).
  now rewrite H.
Qed.

Lemma byte_neq (a b : ascii) : a <> b -> byte a <> byte b.
Proof. intros H E. apply H. now apply byte_inj. Qed.

Lemma byte_nul : byte "000" = 0.
Proof. reflexivity. Qed.

Lemma strcmp_antisym (a b : string) : strcmp b a = - strcmp a b.
Proof.
  revert b. induction a as [|x ta IH]; intros [|y tb]; simpl; try lia.
  rewrite (Ascii.eqb_sym y x).
  destruct (Ascii.eqb_spec x y) as [->|Hxy]; [|lia].
  destruct (Ascii.eqb y "000"); [reflexivity | apply IH].
Qed.

Lemma strcmp_refl (a : string) : strcmp a a = 0.
Proof.
  induction a as [|x ta IH]; simpl; [reflexivity|].
  rewrite Ascii.eqb_refl. now destruct (Ascii.eqb x "000").
Qed.

Lemma strcmp_le_lt_trans (a b c : string) :
  strcmp a b <= 0 -> strcmp b c < 0 -> strcmp a c < 0.
Proof.
  revert b c.
  induction a as [|x ta IH]; intros [|y tb] [|z tc]; simpl;
    try (pose proof (byte_range x)); try (pose proof (byte_range y));
    try (pose proof (byte_range z)); try lia.
  - (* "" <= y.. < z.. *)
    destruct (Ascii.eqb_spec y z) as [->|Hyz]; [|lia].
    destruct (Ascii.eqb_spec z "000") as [->|Hz]; [lia|].
    intros _ _. pose proof (byte_neq _ _ Hz). rewrite byte_nul in *. lia.
  - (* x.. <= "" < z.. *)
    intros Hx Hz.
    destruct (Ascii.eqb_spec x z) as [->|Hxz]; [|lia].
    destruct (Ascii.eqb_spec z "000") as [->|Hz0]; [rewrite byte_nul in *; lia|].
    pose proof (byte_neq _ _ Hz0). rewrite byte_nul in *. lia.
  - destruct (Ascii.eqb_spec x y) as [->|Hxy];
      destruct (Ascii.eqb_spec y z) as [->|Hyz].
    + destruct (Ascii.eqb z "000"); [lia | apply IH].
    + destruct (Ascii.eqb y "000"); lia.
    + destruct (Ascii.eqb_spec x z); [contradiction|].
      pose proof (byte_neq _ _ Hxy).
      destruct (Ascii.eqb z "000"); lia.
    + destruct (Ascii.eqb_spec x z) as [->|Hxz]; [|lia].
      pose proof (byte_neq _ _ Hxy). lia.
Qed.

Lemma strcmp_lt_trans (a b c : string) :
  strcmp a b < 0 -> strcmp b c < 0 -> strcmp a c < 0.
Proof. intros H1 H2. apply (strcmp_le_lt_trans a b c); [lia | exact H2]. Qed.

(** An earlier best that [b] did not beat stays below what beats [b]. *)
Lemma strcmp_ge_lt_trans (b e n : string) :
  strcmp b e >= 0 -> strcmp b n < 0 -> strcmp e n < 0.
Proof.
  intros H1 H2. apply (strcmp_le_lt_trans e b n); [|exact H2].
  rewrite (strcmp_antisym b e). lia.
Qed.

End StrcmpFacts.

(* ================================================================== *)
(** * Update selector: properties                                       *)
(* ================================================================== *)

Section Selection.
Variable cd : image_deps.
Variable curr : image_entry.
Hypothesis curr_deps : deps curr = Some cd.

(** The guard of [check_if_newer] decides [qualifies]. *)
Lemma guard_qualifies (e : image_entry) (nd : image_deps) :
  deps e = Some nd ->
  (streq (architecture cd) (architecture nd)
   && (version_cmp (sysext_version_id cd) (sysext_version_id nd) <? 0) = true
   <-> qualifies cd e).
Proof.
  intros He. unfold qualifies, streq. rewrite andb_true_iff, String.eqb_eq, Z.ltb_lt.
  split.
  - intros [Ha Hv]. exists nd. now rewrite Ha.
  - intros [d [Hd [Ha Hv]]]. rewrite He in Hd. inversion Hd; subst.
    now rewrite Ha.
Qed.

Lemma selected_snoc_unqualified (seen : list image_entry)
      (upd : option image_entry) (e : image_entry) :
  ~ qualifies cd e -> selected cd seen upd -> selected cd (seen ++ [e]) upd.
Proof.
  intros Hq. destruct upd as [u|]; simpl.
  - intros (i & c & Hi & Hc & Hu & Hbefore & Hafter).
    assert (Hlt : (i < List.length seen)%nat)
      by (apply nth_error_Some; congruence).
    exists i, c. repeat split; trivial.
    + now rewrite nth_error_app1.
    + intros j c' Hj Hn. rewrite nth_error_app1 in Hn by lia.
      now apply (Hbefore j).
    + intros j c' Hj Hn Hq'.
      destruct (Nat.lt_ge_cases j (List.length seen)) as [Hin|Hout].
      * rewrite nth_error_app1 in Hn by exact Hin. now apply (Hafter j).
      * rewrite nth_error_app2 in Hn by exact Hout.
        destruct (j - List.length seen)%nat as [|k]; simpl in Hn.
        -- inversion Hn; subst. contradiction.
        -- destruct k; discriminate.
  - intros Hnone c Hin. apply in_app_or in Hin. destruct Hin as [Hin|[<-|[]]].
    + now apply Hnone.
    + exact Hq.
Qed.

Lemma selected_snoc_kept (seen : list image_entry) (u e : image_entry)
      (ud nd : image_deps) :
  deps u = Some ud -> deps e = Some nd ->
  version_cmp (sysext_version_id ud) (sysext_version_id nd) >= 0 ->
  selected cd seen (Some u) -> selected cd (seen ++ [e]) (Some u).
Proof.
  intros Hud Hnd Hge (i & c & Hi & Hc & Hu & Hbefore & Hafter).
  assert (Hlt : (i < List.length seen)%nat)
    by (apply nth_error_Some; congruence).
  exists i, c. repeat split; trivial.
  - now rewrite nth_error_app1.
  - intros j c' Hj Hn. rewrite nth_error_app1 in Hn by lia.
    now apply (Hbefore j).
  - intros j c' Hj Hn Hq'.
    destruct (Nat.lt_ge_cases j (List.length seen)) as [Hin|Hout].
    + rewrite nth_error_app1 in Hn by exact Hin. now apply (Hafter j).
    + rewrite nth_error_app2 in Hn by exact Hout.
      destruct (j - List.length seen)%nat as [|k]; simpl in Hn.
      * inversion Hn; subst c'. subst u. simpl in Hud.
        unfold version_of. now rewrite Hud, Hnd.
      * destruct k; discriminate.
Qed.

Lemma selected_snoc_first (seen : list image_entry) (e : image_entry) :
  qualifies cd e ->
  selected cd seen None -> selected cd (seen ++ [e]) (Some (update_of e)).
Proof.
  intros Hq Hnone. exists (List.length seen), e.
  repeat split; trivial.
  - rewrite nth_error_app2 by lia. now rewrite Nat.sub_diag.
  - intros j c' Hj Hn Hq'. rewrite nth_error_app1 in Hn by exact Hj.
    exfalso. apply (Hnone c'); [|exact Hq'].
    now apply nth_error_In with j.
  - intros j c' Hj Hn. exfalso.
    assert (nth_error (seen ++ [e]) j <> None) as Hs by congruence.
    apply nth_error_Some in Hs. rewrite length_app in Hs. simpl in Hs. lia.
Qed.

Lemma selected_snoc_newer (seen : list image_entry) (u e : image_entry)
      (ud nd : image_deps) :
  deps u = Some ud -> deps e = Some nd -> qualifies cd e ->
  version_cmp (sysext_version_id ud) (sysext_version_id nd) < 0 ->
  selected cd seen (Some u) ->
  selected cd (seen ++ [e]) (Some (update_of e)).
Proof.
  intros Hud Hnd Hq Hlt (i & c & Hi & Hc & Hu & Hbefore & Hafter).
  assert (Hil : (i < List.length seen)%nat)
    by (apply nth_error_Some; congruence).
  assert (Hvc : version_of c = sysext_version_id ud).
  { subst u. simpl in Hud. unfold version_of. now rewrite Hud. }
  assert (Hve : version_of e = sysext_version_id nd).
  { unfold version_of. now rewrite Hnd. }
  exists (List.length seen), e. repeat split; trivial.
  - rewrite nth_error_app2 by lia. now rewrite Nat.sub_diag.
  - intros j c' Hj Hn Hq'. rewrite nth_error_app1 in Hn by exact Hj.
    rewrite Hve. unfold version_cmp in *.
    destruct (Nat.lt_trichotomy j i) as [Hji|[Hji|Hji]].
    + apply strcmp_lt_trans with (version_of c).
      * now apply (Hbefore j).
      * now rewrite Hvc.
    + subst j. rewrite Hi in Hn. inversion Hn; subst c'. now rewrite Hvc.
    + apply strcmp_ge_lt_trans with (version_of c).
      * now apply (Hafter j).
      * now rewrite Hvc.
  - intros j c' Hj Hn. exfalso.
    assert (nth_error (seen ++ [e]) j <> None) as Hs by congruence.
    apply nth_error_Some in Hs. rewrite length_app in Hs. simpl in Hs. lia.
Qed.

(** One call of [check_if_newer] on a candidate that has its metadata
    returns and extends the selection by that candidate. *)
Lemma check_if_newer_selected (seen : list image_entry)
      (upd : option image_entry) (e : image_entry) (fs : tmpfs) :
  deps e <> None -> selected cd seen upd ->
  exists e' upd',
    check_if_newer curr e upd fs = (Ret (0, e', upd'), fs) /\
    selected cd (seen ++ [e]) upd'.
Proof.
  intros He Hsel. destruct (deps e) as [nd|] eqn:Hnd; [clear He|congruence].
  unfold check_if_newer. rewrite curr_deps, Hnd.
  pose proof (guard_qualifies e nd Hnd) as Hg.
  destruct (streq (architecture cd) (architecture nd)
            && (version_cmp (sysext_version_id cd) (sysext_version_id nd) <? 0))
    eqn:G.
  - assert (Hq : qualifies cd e) by now apply Hg.
    destruct upd as [u|].
    + assert (Hu : exists ud, deps u = Some ud).
      { destruct Hsel as (i & c & _ & (d & Hd & _) & -> & _).
        exists d. exact Hd. }
      destruct Hu as [ud Hud]. rewrite Hud.
      destruct (version_cmp (sysext_version_id ud) (sysext_version_id nd) >=? 0)
        eqn:C.
      * exists e, (Some u). split; [reflexivity|].
        apply (selected_snoc_kept seen u e ud nd); trivial.
        apply Z.geb_le in C. lia.
      * exists (set_deps e None), (Some (update_of e)). split; [reflexivity|].
        apply (selected_snoc_newer seen u e ud nd); trivial.
        rewrite Z.geb_leb in C. apply Z.leb_gt in C. exact C.
    + exists (set_deps e None), (Some (update_of e)). split; [reflexivity|].
      now apply selected_snoc_first.
  - exists e, upd. split; [reflexivity|].
    apply selected_snoc_unqualified; [|exact Hsel].
    intros Hq. apply Hg in Hq. congruence.
Qed.

(** The scan of a whole array whose candidates all have their metadata. *)
Lemma scan_images_selected (l : list image_entry) :
  Forall (fun e => deps e <> None) l ->
  forall (seen : list image_entry) (upd : option image_entry) (fs : tmpfs),
    selected cd seen upd ->
    exists upd',
      scan_images curr l (List.length l) upd fs = (Ret upd', fs) /\
      selected cd (seen ++ l) upd'.
Proof.
  induction 1 as [|e rest He Hrest IH]; intros seen upd fs Hsel.
  - exists upd. split; [reflexivity|]. now rewrite app_nil_r.
  - destruct (check_if_newer_selected seen upd e fs He Hsel)
      as (e' & upd1 & Hrun & Hsel1).
    destruct (IH (seen ++ [e]) upd1 fs Hsel1) as (upd' & Hscan & Hsel').
    exists upd'. split.
    + simpl. unfold bind at 1. rewrite Hrun. exact Hscan.
    + now rewrite <- app_assoc in Hsel'.
Qed.

End Selection.

Section GetLatestVersion.
Variable store : string.
Variables remote_metadata local_metadata : string -> string -> M metadata_result.
Variable curr : image_entry.
Variable url : option string.

(** [get_latest_version] when the metadata calls succeed and both scans
    return; without a URL the remote variables keep their initial values
    and the first scan has nothing to read. *)
Lemma get_latest_version_steps
      (r1 r2 : Z) (res1 res2 : option (list image_entry)) (n1 n2 : option nat)
      (u1 u2 : option image_entry) (fs0 fs1 fs2 : tmpfs) :
  match url with
  | Some u => remote_metadata u (name curr) fs0 = (Ret (r1, res1, n1), fs1)
  | None => (r1, res1, n1, fs1) = (0, None, None, fs0)
  end ->
  0 <= r1 ->
  scan_images curr (images_of res1) (count_of n1) None fs1 = (Ret u1, fs1) ->
  local_metadata store (name curr) fs1 = (Ret (r2, res2, n2), fs2) ->
  0 <= r2 ->
  scan_images curr (images_of res2) (count_of n2) u1 fs2 = (Ret u2, fs2) ->
  get_latest_version store remote_metadata local_metadata curr url fs0
  = (Ret (0, u2), fs2).
Proof.
  intros H1 Hr1 S1 H2 Hr2 S2. unfold get_latest_version.
  unfold bind at 1.
  assert (R : match url with
              | Some u => remote_metadata u (name curr)
              | None => ret (0, None, None)
              end fs0 = (Ret (r1, res1, n1), fs1)).
  { destruct url; [exact H1|]. now inversion H1. }
  rewrite R. apply Z.ltb_ge in Hr1. rewrite Hr1.
  unfold bind at 1. rewrite S1.
  unfold bind at 1. rewrite H2.
  apply Z.ltb_ge in Hr2. rewrite Hr2.
  unfold bind at 1. rewrite S2. reflexivity.
Qed.

End GetLatestVersion.

(** C1.  With or without a URL: when the metadata calls that are made
    succeed and every candidate has its metadata, [get_latest_version]
    returns 0 and its result is the selection over the remote candidates
    (none without a URL) followed by the local ones: no update when no
    candidate has the installed architecture and a strictly greater
    version; otherwise the entry of a candidate with both, which is
    strictly newer than every qualifying candidate scanned before it and
    not older than any scanned after it. *)
Theorem get_latest_version_selects
        (store : string)
        (remote_metadata local_metadata : string -> string -> M metadata_result)
        (curr : image_entry) (cd : image_deps) (url : option string)
        (r1 r2 : Z) (res1 res2 : option (list image_entry)) (n1 n2 : option nat)
        (fs0 fs1 fs2 : tmpfs) :
  deps curr = Some cd ->
  match url with
  | Some u => remote_metadata u (name curr) fs0 = (Ret (r1, res1, n1), fs1)
  | None => (r1, res1, n1, fs1) = (0, None, None, fs0)
  end ->
  0 <= r1 -> count_of n1 = List.length (images_of res1) ->
  local_metadata store (name curr) fs1 = (Ret (r2, res2, n2), fs2) ->
  0 <= r2 -> count_of n2 = List.length (images_of res2) ->
  Forall (fun c => deps c <> None) (images_of res1 ++ images_of res2) ->
  exists new,
    get_latest_version store remote_metadata local_metadata curr url fs0
    = (Ret (0, new), fs2) /\
    selected cd (images_of res1 ++ images_of res2) new.
Proof.
  intros Hc H1 Hr1 Hn1 H2 Hr2 Hn2 Hall.
  apply Forall_app in Hall. destruct Hall as [Hrem Hloc].
  destruct (scan_images_selected cd curr Hc (images_of res1) Hrem [] None fs1)
    as (u1 & S1 & Sel1); [intros c []|].
  destruct (scan_images_selected cd curr Hc (images_of res2) Hloc
              ([] ++ images_of res1) u1 fs2 Sel1) as (u2 & S2 & Sel2).
  exists u2. split; [|exact Sel2].
  apply (get_latest_version_steps store remote_metadata local_metadata curr url
           r1 r2 res1 res2 n1 n2 u1 u2 fs0 fs1 fs2); trivial.
  - now rewrite Hn1.
  - now rewrite Hn2.
Qed.

Lemma get_latest_version_selects_witness :
  (exists new,
     get_latest_version "/var/lib/sysext-store"
       (Fixtures.listing Fixtures.remote_1) (Fixtures.listing Fixtures.local_1)
       Fixtures.installed_1_0 (Some "https://example.org/sysext") []
     = (Ret (0, new), []) /\
     selected (Fixtures.deps_of "1.0" "x86_64")
              (Fixtures.remote_1 ++ Fixtures.local_1) new) /\
  (exists new,
     get_latest_version "/var/lib/sysext-store"
       (Fixtures.listing Fixtures.remote_1) (Fixtures.listing Fixtures.local_1)
       Fixtures.installed_1_0 None []
     = (Ret (0, new), []) /\
     selected (Fixtures.deps_of "1.0" "x86_64") ([] ++ Fixtures.local_1) new).
Proof.
  split.
  - apply (get_latest_version_selects
             "/var/lib/sysext-store"
             (Fixtures.listing Fixtures.remote_1) (Fixtures.listing Fixtures.local_1)
             Fixtures.installed_1_0 (Fixtures.deps_of "1.0" "x86_64")
             (Some "https://example.org/sysext")
             0 0 (Some Fixtures.remote_1) (Some Fixtures.local_1)
             (Some 2%nat) (Some 3%nat) [] [] []).
    + reflexivity.
    + reflexivity.
    + lia.
    + reflexivity.
    + reflexivity.
    + lia.
    + reflexivity.
    + repeat constructor; discriminate.
  - apply (get_latest_version_selects
             "/var/lib/sysext-store"
             (Fixtures.listing Fixtures.remote_1) (Fixtures.listing Fixtures.local_1)
             Fixtures.installed_1_0 (Fixtures.deps_of "1.0" "x86_64")
             None
             0 0 None (Some Fixtures.local_1)
             None (Some 3%nat) [] [] []).
    + reflexivity.
    + reflexivity.
    + lia.
    + reflexivity.
    + reflexivity.
    + lia.
    + reflexivity.
    + repeat constructor; discriminate.
Defined.

(** Without a URL the store alone decides: the newest local image of the
    installed architecture is handed out. *)
Example get_latest_version_without_url :
  get_latest_version "/var/lib/sysext-store"
    (Fixtures.listing Fixtures.remote_1) (Fixtures.listing Fixtures.local_1)
    Fixtures.installed_1_0 None []
  = (Ret (0, Some (Fixtures.entry_of "debug-tools" "1.2" "x86_64")), []).
Proof. reflexivity. Qed.

Example get_latest_version_ties_keep_first :
  get_latest_version "/var/lib/sysext-store"
    (Fixtures.listing Fixtures.remote_1) (Fixtures.listing Fixtures.local_1)
    Fixtures.installed_1_0 (Some "https://example.org/sysext") []
  = (Ret (0, Some (Fixtures.entry_of "debug-tools" "1.2" "x86_64")), []).
Proof. reflexivity. Qed.

(** C2, as the specification states it, fails: with "9" installed and the
    candidates "10" and "2" of the same architecture, the call returns 0
    and no update; the candidate "2" is not selected. *)
Lemma lexicographic_does_not_select_2 :
  get_latest_version "/var/lib/sysext-store"
    (Fixtures.listing []) (Fixtures.listing Fixtures.candidates_10_2)
    Fixtures.installed_9 None []
  = (Ret (0, None), []) /\
  ~ (exists u d fs,
       get_latest_version "/var/lib/sysext-store"
         (Fixtures.listing []) (Fixtures.listing Fixtures.candidates_10_2)
         Fixtures.installed_9 None []
       = (Ret (0, Some u), fs) /\
       deps u = Some d /\ sysext_version_id d = "2").
Proof.
  split; [reflexivity|].
  intros (u & d & fs & H & _). vm_compute in H. discriminate.
Qed.

(** C2, amended.  With "9" installed, candidates of the same architecture
    whose versions are "10" or "2" never qualify under [strcmp], in
    whichever list and order they come: both compare less than "9", and
    [get_latest_version] returns no update. *)
Theorem lexicographic_9_has_no_update
        (store : string)
        (remote_metadata local_metadata : string -> string -> M metadata_result)
        (curr : image_entry) (cd : image_deps) (url : string)
        (r1 r2 : Z) (res1 res2 : option (list image_entry)) (n1 n2 : option nat)
        (fs0 fs1 fs2 : tmpfs) :
  deps curr = Some cd ->
  sysext_version_id cd = "9" ->
  remote_metadata url (name curr) fs0 = (Ret (r1, res1, n1), fs1) ->
  0 <= r1 -> count_of n1 = List.length (images_of res1) ->
  local_metadata store (name curr) fs1 = (Ret (r2, res2, n2), fs2) ->
  0 <= r2 -> count_of n2 = List.length (images_of res2) ->
  Forall (fun c => exists d, deps c = Some d /\
                             architecture d = architecture cd /\
                             (sysext_version_id d = "10" \/
                              sysext_version_id d = "2"))
         (images_of res1 ++ images_of res2) ->
  version_cmp "9" "10" > 0 /\ version_cmp "9" "2" > 0 /\
  get_latest_version store remote_metadata local_metadata curr (Some url) fs0
  = (Ret (0, None), fs2).
Proof.
  intros Hc H9 H1 Hr1 Hn1 H2 Hr2 Hn2 Hall.
  split; [reflexivity|]. split; [reflexivity|].
  assert (Hdeps : Forall (fun c => deps c <> None)
                         (images_of res1 ++ images_of res2)).
  { eapply Forall_impl; [|exact Hall]. intros c (d & Hd & _). congruence. }
  apply Forall_app in Hdeps. destruct Hdeps as [Hrem Hloc].
  destruct (scan_images_selected cd curr Hc (images_of res1) Hrem [] None fs1)
    as (u1 & S1 & Sel1); [intros c []|].
  destruct (scan_images_selected cd curr Hc (images_of res2) Hloc
              ([] ++ images_of res1) u1 fs2 Sel1) as (u2 & S2 & Sel2).
  assert (Hnone : forall c, In c (images_of res1 ++ images_of res2) ->
                            ~ qualifies cd c).
  { intros c Hin (d & Hd & _ & Hv).
    rewrite Forall_forall in Hall. destruct (Hall c Hin) as (d' & Hd' & _ & Hver).
    rewrite Hd in Hd'. inversion Hd'; subst d'. rewrite H9 in Hv.
    destruct Hver as [E|E]; rewrite E in Hv; vm_compute in Hv; discriminate. }
  assert (u2 = None) as ->.
  { destruct u2 as [u|]; [|reflexivity]. exfalso.
    destruct Sel2 as (i & c & Hi & Hq & _).
    apply (Hnone c); [|exact Hq]. now apply nth_error_In with i. }
  apply (get_latest_version_steps store remote_metadata local_metadata curr
           (Some url) r1 r2 res1 res2 n1 n2 u1 None fs0 fs1 fs2); trivial.
  - now rewrite Hn1.
  - now rewrite Hn2.
Qed.

Lemma lexicographic_9_has_no_update_witness :
  version_cmp "9" "10" > 0 /\ version_cmp "9" "2" > 0 /\
  get_latest_version "/var/lib/sysext-store"
    (Fixtures.listing Fixtures.candidates_10_2) (Fixtures.listing [])
    Fixtures.installed_9 (Some "https://example.org/sysext") []
  = (Ret (0, None), []).
Proof.
  apply (lexicographic_9_has_no_update
           "/var/lib/sysext-store"
           (Fixtures.listing Fixtures.candidates_10_2) (Fixtures.listing [])
           Fixtures.installed_9 (Fixtures.deps_of "9" "x86_64")
           "https://example.org/sysext"
           0 0 (Some Fixtures.candidates_10_2) None
           (Some 2%nat) (Some 0%nat) [] [] []).
  - reflexivity.
  - reflexivity.
  - reflexivity.
  - lia.
  - reflexivity.
  - reflexivity.
  - lia.
  - reflexivity.
  - repeat constructor; eexists; (split; [reflexivity|]);
      (split; [reflexivity|]); auto.
Defined.

(* ================================================================== *)
(** * Per-image JSON loader and temporary files                         *)
(* ================================================================== *)

Section TempFiles.
Variable w : world.

(** When the body returns, the cleanup handler has removed the file. *)
Lemma with_tempfile_returned {A} (template : string) (body : string -> M A)
      (fs fs' : tmpfs) (a : A) :
  with_tempfile w template body fs = (Ret a, fs') ->
  ~ In (mkostemp_safe w template fs) fs'.
Proof.
  unfold with_tempfile.
  destruct (body (mkostemp_safe w template fs) (mkostemp_safe w template fs :: fs))
    as [[b|st| |] fs1]; intros H; inversion H; subst.
  unfold unlink. apply remove_In.
Qed.

(** [image_read_metadata] always returns, and its temporary file is gone
    when it does. *)
Lemma image_read_metadata_returns (img : string) (fs : tmpfs) :
  exists r d fs',
    image_read_metadata w img fs = (Ret (r, d), fs') /\
    ~ In (mkostemp_safe w "/tmp/sysext-image-extrelease.XXXXXX" fs) fs'.
Proof.
  assert (R : exists r d fs', image_read_metadata w img fs = (Ret (r, d), fs')).
  { unfold image_read_metadata, with_tempfile.
    destruct (extract w (SYSEXT_STORE_DIR w) img) as [r0 c].
    destruct (r0 <? 0); [now do 3 eexists|].
    destruct (0 <? r0); [now do 3 eexists|].
    destruct (load_ext_release w img c) as [r1 d1].
    destruct (r1 <? 0); now do 3 eexists. }
  destruct R as (r & d & fs' & E). exists r, d, fs'. split; [exact E|].
  exact (with_tempfile_returned _ _ _ _ _ E).
Qed.

(** Every return of [image_json_from_url] has removed its temporary
    file. *)
Lemma image_json_from_url_returned (url img : string) (fs fs' : tmpfs)
      (r : Z) (d : option image_deps) :
  image_json_from_url w url img fs = (Ret (r, d), fs') ->
  ~ In (mkostemp_safe w "/tmp/sysext-image-json.XXXXXX" fs) fs'.
Proof. apply with_tempfile_returned. Qed.

(** What [image_json_from_url] does, by what the collaborators answer. *)
Lemma image_json_from_url_run (url img : string) (fs : tmpfs) :
  let tmpfn := mkostemp_safe w "/tmp/sysext-image-json.XXXXXX" fs in
  let '(r, content) := download w url (img ++ ".json")%string in
  let '(r', images) := load_image_json w content in
  image_json_from_url w url img fs =
  if r <? 0 then (Ret (r, None), unlink tmpfn (tmpfn :: fs))
  else if r' <? 0 then (Ret (r', None), unlink tmpfn (tmpfn :: fs))
  else match images with
       | None | Some [] => (Ret (- ENOENT, None), unlink tmpfn (tmpfn :: fs))
       | Some [d] => (Ret (0, Some d), unlink tmpfn (tmpfn :: fs))
       | Some (_ :: _ :: _) => (Exit EXIT_FAILURE, tmpfn :: fs)
       end.
Proof.
  unfold image_json_from_url, with_tempfile.
  destruct (download w url (img ++ ".json")%string) as [r content].
  destruct (load_image_json w content) as [r' images].
  destruct (r <? 0); [reflexivity|].
  destruct (r' <? 0); [reflexivity|].
  destruct images as [[|d [|d' rest]]|]; reflexivity.
Qed.

End TempFiles.

(** C3, as the specification states it, fails: when the downloaded
    document holds two records, [image_json_from_url] does not return an
    error: the process exits with [EXIT_FAILURE]. *)
Lemma image_json_from_url_two_records_exit :
  let w := Fixtures.remote_world "[{},{}]"
             [Fixtures.deps_of "1.0" "x86_64"; Fixtures.deps_of "1.0" "aarch64"] in
  fst (image_json_from_url w "https://example.org/sysext" "foo-1.0.x86_64.raw" [])
    = Exit EXIT_FAILURE /\
  ~ (exists r res,
       fst (image_json_from_url w "https://example.org/sysext"
                                "foo-1.0.x86_64.raw" [])
       = Ret (r, res)).
Proof.
  split; [reflexivity|]. intros (r & res & H). vm_compute in H. discriminate.
Qed.

(** C3, amended.  After a successful download and parse, a document with
    exactly one record makes [image_json_from_url] return 0 with that
    record; a document with none makes it return [-ENOENT]; a document
    with two or more makes it end the process with [exit(EXIT_FAILURE)]:
    nothing is returned to the caller. *)
Theorem image_json_from_url_by_count
        (w : world) (url img content : string) (r r' : Z)
        (images : option (list image_deps)) (fs : tmpfs) :
  download w url (img ++ ".json")%string = (r, content) -> 0 <= r ->
  load_image_json w content = (r', images) -> 0 <= r' ->
  fst (image_json_from_url w url img fs) =
  match images with
  | Some [d] => Ret (0, Some d)
  | None | Some [] => Ret (- ENOENT, None)
  | Some (_ :: _ :: _) => Exit EXIT_FAILURE
  end.
Proof.
  intros Hd Hr Hl Hr'.
  pose proof (image_json_from_url_run w url img fs) as H. cbv zeta in H.
  rewrite Hd, Hl in H. rewrite H.
  apply Z.ltb_ge in Hr, Hr'. rewrite Hr, Hr'.
  destruct images as [[|d [|d' rest]]|]; reflexivity.
Qed.

Lemma image_json_from_url_by_count_witness :
  fst (image_json_from_url
         (Fixtures.remote_world "{}" [Fixtures.deps_of "1.0" "x86_64"])
         "https://example.org/sysext" "foo-1.0.x86_64.raw" [])
  = Ret (0, Some (Fixtures.deps_of "1.0" "x86_64")).
Proof.
  apply (image_json_from_url_by_count
           (Fixtures.remote_world "{}" [Fixtures.deps_of "1.0" "x86_64"])
           "https://example.org/sysext" "foo-1.0.x86_64.raw" "{}" 0 0
           (Some [Fixtures.deps_of "1.0" "x86_64"]) []).
  - reflexivity.
  - lia.
  - reflexivity.
  - lia.
Defined.

(** C10 at its failing input: the downloaded document holds two records.
    [image_json_from_url] ends the process inside the scope of its
    temporary file; the cleanup handler does not run and the file, which
    did not exist before the call, is still there. *)
Theorem image_json_from_url_leaves_tempfile :
  let w := Fixtures.remote_world "[{},{}]"
             [Fixtures.deps_of "1.0" "x86_64"; Fixtures.deps_of "1.0" "aarch64"] in
  image_json_from_url w "https://example.org/sysext" "foo-1.0.x86_64.raw" []
  = (Exit EXIT_FAILURE, ["/tmp/sysext-image-json.k3Jx9q"]) /\
  mkostemp_safe w "/tmp/sysext-image-json.XXXXXX" []
  = "/tmp/sysext-image-json.k3Jx9q".
Proof. split; reflexivity. Qed.

(* ================================================================== *)
(** * Remote index reader: properties                                   *)
(* ================================================================== *)

Section ManifestFacts.

Lemma strchr_none (c : ascii) (s : string) :
  strchr s c = None <-> occurs c s = false.
Proof.
  induction s as [|a t IH]; simpl; [tauto|].
  destruct (Ascii.eqb a c); simpl; [split; discriminate | exact IH].
Qed.

(** Where [strchr] finds the first space is where the hash token ends. *)
Lemma strchr_skip_token (s p : string) :
  strchr s " " = Some p -> skip_token s = p.
Proof.
  induction s as [|a t IH]; simpl; [discriminate|].
  destruct (Ascii.eqb a " "); [now inversion 1 | exact IH].
Qed.

Lemma skip_token_suffix (s : string) :
  exists front, s = (front ++ skip_token s)%string.
Proof.
  induction s as [|a t [front IH]]; simpl; [now exists ""|].
  destruct (Ascii.eqb a " "); [now exists ""|].
  exists (String a front). simpl. now rewrite <- IH.
Qed.

Lemma skip_spaces_suffix (s : string) :
  exists front, s = (front ++ skip_spaces s)%string.
Proof.
  induction s as [|a t [front IH]]; simpl; [now exists ""|].
  destruct (Ascii.eqb a " "); [|now exists ""].
  exists (String a front). simpl. now rewrite <- IH.
Qed.

Lemma filename_field_suffix (line : string) :
  exists front, line = (front ++ filename_field line)%string.
Proof.
  unfold filename_field.
  destruct (skip_token_suffix line) as [f1 H1].
  destruct (skip_spaces_suffix (skip_token line)) as [f2 H2].
  exists (f1 ++ f2)%string. rewrite append_assoc, <- H2. exact H1.
Qed.

(** The extracted name starts at a byte that is not a space. *)
Lemma skip_spaces_head (s : string) :
  match skip_spaces s with
  | String c _ => c <> " "%char
  | EmptyString => True
  end.
Proof.
  induction s as [|a t IH]; simpl; [exact I|].
  destruct (Ascii.eqb_spec a " "); [exact IH | assumption].
Qed.

Lemma occurs_differ (c : ascii) (s suffix : string) :
  occurs c s = true -> occurs c suffix = false -> String.eqb s suffix = false.
Proof.
  intros Hs Hsuf. apply String.eqb_neq. intros ->. congruence.
Qed.

Lemma endswith_skip_token (s suffix : string) :
  occurs " " suffix = false -> occurs " " s = true ->
  endswith (skip_token s) suffix = endswith s suffix.
Proof.
  intros Hsuf. induction s as [|a t IH]; intros Hs; [reflexivity|].
  cbn [skip_token]. destruct (Ascii.eqb a " ") eqn:E; [reflexivity|].
  rewrite (endswith_cons a t). rewrite (occurs_differ " " _ _ Hs Hsuf).
  simpl in Hs. rewrite E in Hs. simpl in *. now apply IH.
Qed.

Lemma endswith_skip_spaces (s suffix : string) :
  occurs " " suffix = false ->
  endswith (skip_spaces s) suffix = endswith s suffix.
Proof.
  intros Hsuf. induction s as [|a t IH]; [reflexivity|].
  cbn [skip_spaces]. destruct (Ascii.eqb a " ") eqn:E; [|reflexivity].
  rewrite (endswith_cons a t).
  rewrite (occurs_differ " " (String a t) suffix); [exact IH | | exact Hsuf].
  simpl. now rewrite E.
Qed.

(** On a line with a space, the line ends in an image suffix exactly
    when its filename field does. *)
Lemma is_image_name_field (line : string) :
  occurs " " line = true ->
  is_image_name (filename_field line) = is_image_name line.
Proof.
  intros H. unfold is_image_name, filename_field.
  rewrite !endswith_skip_spaces by reflexivity.
  now rewrite !endswith_skip_token by (reflexivity || exact H).
Qed.

(** [getline] loses nothing: the lines put end to end are the file. *)
Lemma read_lines_join (content : string) :
  fold_right String.append "" (read_lines content) = content.
Proof.
  induction content as [|c t IH]; simpl; [reflexivity|].
  destruct (Ascii.eqb c "010"); simpl; [now rewrite IH|].
  destruct (read_lines t) as [|l ls]; simpl in *; now rewrite IH.
Qed.

Variable w : world.

Lemma manifest_loop_total (lines result : list string) (fs : tmpfs) :
  (forall l, In l (List.map (fun raw => c_str (chomp raw)) lines) ->
             is_image_name l = true -> occurs " " l = true) ->
  manifest_loop lines result fs
  = (Ret (result ++ List.map filename_field
                             (List.filter is_image_name
                                (List.map (fun raw => c_str (chomp raw)) lines))),
     fs).
Proof.
  revert result. induction lines as [|raw rest IH]; intros result Hsp;
    cbn [manifest_loop List.map List.filter].
  - now rewrite app_nil_r.
  - fold (is_image_name (c_str (chomp raw))).
    destruct (is_image_name (c_str (chomp raw))) eqn:Himg.
    + assert (Hs : occurs " " (c_str (chomp raw)) = true)
        by (apply Hsp; [now left | exact Himg]).
      destruct (strchr (c_str (chomp raw)) " ") as [p|] eqn:Hp.
      * rewrite IH by (intros l Hl; apply Hsp; now right).
        rewrite <- app_assoc. cbn [List.map app]. unfold filename_field at 2.
        now rewrite (strchr_skip_token _ _ Hp).
      * apply strchr_none in Hp. congruence.
    + apply IH. intros l Hl. apply Hsp. now right.
Qed.

Lemma manifest_loop_fault (lines result : list string) (fs : tmpfs) :
  (exists l, In l (List.map (fun raw => c_str (chomp raw)) lines) /\
             is_image_name l = true /\ occurs " " l = false) ->
  manifest_loop lines result fs = (Fault, fs).
Proof.
  revert result. induction lines as [|raw rest IH];
    intros result (l & Hin & Himg & Hsp); cbn [List.map] in Hin;
    [contradiction|].
  cbn [manifest_loop]. fold (is_image_name (c_str (chomp raw))).
  destruct (is_image_name (c_str (chomp raw))) eqn:Hraw.
  - destruct (strchr (c_str (chomp raw)) " ") as [p|] eqn:Hp; [|reflexivity].
    apply IH. destruct Hin as [<-|Hin].
    + apply strchr_none in Hsp. congruence.
    + now exists l.
  - apply IH. destruct Hin as [<-|Hin]; [congruence | now exists l].
Qed.

(** [image_list_from_url] once the manifest is downloaded and opened. *)
Lemma image_list_from_url_run (url content : string) (r : Z) (fs : tmpfs) :
  download w url "SHA256SUMS" = (r, content) -> 0 <= r ->
  (forall tmpfn, fdopen w tmpfn = None) ->
  let tmpfn := mkostemp_safe w "/tmp/sysext-SHA256SUMS.XXXXXX" fs in
  image_list_from_url w url fs =
  match manifest_loop (read_lines content) [] (tmpfn :: fs) with
  | (Ret result, fs') => (Ret (0, Some result), unlink tmpfn fs')
  | (Exit st, fs') => (Exit st, fs')
  | (Fault, fs') => (Fault, fs')
  | (Undefined, fs') => (Undefined, fs')
  end.
Proof.
  intros Hd Hr Hf. unfold image_list_from_url, with_tempfile.
  rewrite Hd. apply Z.ltb_ge in Hr. rewrite Hr, Hf.
  unfold bind, ret.
  destruct (manifest_loop (read_lines content) []
              (mkostemp_safe w "/tmp/sysext-SHA256SUMS.XXXXXX" fs :: fs))
    as [[res|st| |] fs']; reflexivity.
Qed.

Lemma c_str_text (s : string) : occurs "000" s = false -> c_str s = s.
Proof.
  induction s as [|a t IH]; simpl; [trivial|].
  destruct (Ascii.eqb a "000"); [discriminate|]. simpl.
  intros H. now rewrite IH.
Qed.

Lemma chomp_occurs (c : ascii) (s : string) :
  occurs c s = false -> occurs c (chomp s) = false.
Proof.
  induction s as [|a t IH]; [trivial|].
  destruct t as [|b t'].
  - simpl. destruct (Ascii.eqb a "010"); [reflexivity|]. simpl. trivial.
  - change (chomp (String a (String b t'))) with (String a (chomp (String b t'))).
    simpl occurs at 1. simpl occurs at 2.
    destruct (Ascii.eqb a c); [discriminate|]. exact IH.
Qed.

Lemma read_lines_occurs (c : ascii) (content : string) :
  occurs c content = false ->
  Forall (fun l => occurs c l = false) (read_lines content).
Proof.
  induction content as [|a t IH]; simpl; [constructor|].
  destruct (Ascii.eqb a c) eqn:E; [discriminate|]. simpl. intros H.
  specialize (IH H).
  destruct (Ascii.eqb a "010").
  - constructor; [|exact IH]. simpl. now rewrite E.
  - destruct (read_lines t) as [|l ls].
    + constructor; [|constructor]. simpl. now rewrite E.
    + inversion IH; subst. constructor; [|assumption]. simpl. now rewrite E.
Qed.

(** A manifest that is text, with no NUL byte, is seen line by line as it
    is. *)
Lemma manifest_lines_text (content : string) :
  occurs "000" content = false ->
  manifest_lines content = List.map chomp (read_lines content).
Proof.
  intros H. unfold manifest_lines. apply map_ext_in. intros raw Hin.
  apply c_str_text, chomp_occurs.
  pose proof (read_lines_occurs "000" content H) as Hall.
  rewrite Forall_forall in Hall. now apply Hall.
Qed.

End ManifestFacts.

Example manifest_line_of_the_spec :
  List.map filename_field (manifest_lines ("deadbeef  foo-1.0.x86_64.raw" ++ String "010" ""))
  = ["foo-1.0.x86_64.raw"].
Proof. reflexivity. Qed.

(** C8.  For a downloaded manifest in which every line that ends in
    ".raw" or ".img" has a space, [image_list_from_url] returns 0 and, in
    line order, the filename fields of exactly those lines, the field
    being what follows the hash token and the whole run of spaces after
    it; on such lines, the line ends in an image suffix exactly when its
    filename field does, so the lines whose field has another suffix are
    the ones skipped.  A line is the C string the code works on,
    [manifest_lines]: the text of the line without its newline, which
    stops at a NUL byte should the file hold one
    ([manifest_lines_text]). *)
Theorem image_list_from_url_fields
        (w : world) (url content : string) (r : Z) (fs : tmpfs) :
  download w url "SHA256SUMS" = (r, content) -> 0 <= r ->
  (forall tmpfn, fdopen w tmpfn = None) ->
  (forall l, In l (manifest_lines content) ->
             is_image_name l = true -> occurs " " l = true) ->
  fst (image_list_from_url w url fs)
  = Ret (0, Some (List.map filename_field
                           (List.filter is_image_name (manifest_lines content)))) /\
  (forall l, occurs " " l = true ->
             is_image_name (filename_field l) = is_image_name l) /\
  (forall l, match filename_field l with
             | String c _ => c <> " "%char
             | EmptyString => True
             end).
Proof.
  intros Hd Hr Hf Hsp. split; [|split].
  - rewrite (image_list_from_url_run w url content r fs Hd Hr Hf).
    unfold manifest_lines in *. now rewrite manifest_loop_total.
  - exact is_image_name_field.
  - intros l. apply skip_spaces_head.
Qed.

Lemma image_list_from_url_fields_witness :
  fst (image_list_from_url (Fixtures.remote_world Fixtures.manifest_good [])
                           "https://example.org/sysext" [])
  = Ret (0, Some ["foo-1.0.x86_64.raw"; "bar-2.1.aarch64.img"]).
Proof.
  apply (image_list_from_url_fields
           (Fixtures.remote_world Fixtures.manifest_good [])
           "https://example.org/sysext" Fixtures.manifest_good 0 []).
  - reflexivity.
  - lia.
  - reflexivity.
  - intros l Hin. vm_compute in Hin.
    destruct Hin as [<-|[<-|[<-|[]]]]; intros H; vm_compute in H |- *;
      congruence.
Defined.

(** C9.  Once the manifest is downloaded and opened: if every line that
    ends in ".raw" or ".img" contains a space, [image_list_from_url]
    returns, and each name it extracts is a suffix of its line; if some
    such line has no space, the call dereferences the null pointer that
    [strchr] returned.  A line is the C string that [endswith] and
    [strchr] see, [manifest_lines]. *)
Theorem image_list_from_url_total_iff_spaces
        (w : world) (url content : string) (r : Z) (fs : tmpfs) :
  download w url "SHA256SUMS" = (r, content) -> 0 <= r ->
  (forall tmpfn, fdopen w tmpfn = None) ->
  ((forall l, In l (manifest_lines content) ->
              is_image_name l = true -> occurs " " l = true) ->
   exists names,
     fst (image_list_from_url w url fs) = Ret (0, Some names) /\
     Forall2 (fun l n => exists front, l = (front ++ n)%string)
             (List.filter is_image_name (manifest_lines content)) names) /\
  ((exists l, In l (manifest_lines content) /\
              is_image_name l = true /\ occurs " " l = false) ->
   fst (image_list_from_url w url fs) = Fault).
Proof.
  intros Hd Hr Hf. split.
  - intros Hsp.
    exists (List.map filename_field
                     (List.filter is_image_name (manifest_lines content))).
    split.
    + rewrite (image_list_from_url_run w url content r fs Hd Hr Hf).
      unfold manifest_lines in *. now rewrite manifest_loop_total.
    + induction (List.filter is_image_name (manifest_lines content)) as [|l ls IH];
        simpl; constructor; [apply filename_field_suffix | exact IH].
  - intros Hbare.
    rewrite (image_list_from_url_run w url content r fs Hd Hr Hf).
    unfold manifest_lines in *. now rewrite manifest_loop_fault.
Qed.

Lemma image_list_from_url_total_iff_spaces_witness :
  (exists names,
     fst (image_list_from_url (Fixtures.remote_world Fixtures.manifest_good [])
                              "https://example.org/sysext" [])
     = Ret (0, Some names) /\
     Forall2 (fun l n => exists front, l = (front ++ n)%string)
             (List.filter is_image_name
                          (manifest_lines Fixtures.manifest_good)) names) /\
  fst (image_list_from_url (Fixtures.remote_world Fixtures.manifest_bare [])
                           "https://example.org/sysext" [])
  = Fault.
Proof.
  split.
  - apply (proj1 (image_list_from_url_total_iff_spaces
                    (Fixtures.remote_world Fixtures.manifest_good [])
                    "https://example.org/sysext" Fixtures.manifest_good 0 []
                    eq_refl (Z.le_refl 0) (fun _ => eq_refl))).
    intros l Hin. vm_compute in Hin.
    destruct Hin as [<-|[<-|[<-|[]]]]; intros H; vm_compute in H |- *;
      congruence.
  - apply (proj2 (image_list_from_url_total_iff_spaces
                    (Fixtures.remote_world Fixtures.manifest_bare [])
                    "https://example.org/sysext" Fixtures.manifest_bare 0 []
                    eq_refl (Z.le_refl 0) (fun _ => eq_refl))).
    exists "bar-2.1.aarch64.img". split; [|split]; vm_compute; auto.
Defined.

(** Two lines with a NUL byte: [abc foo.raw] followed by NUL and [junk]
    is the image line [abc foo.raw], and [a] followed by NUL and [b.raw]
    is the line [a], which is skipped. *)
Example image_list_from_url_nul :
  manifest_lines Scenarios.manifest_nul = ["abc foo.raw"; "a"] /\
  image_list_from_url (Fixtures.remote_world Scenarios.manifest_nul [])
                      "https://example.org/sysext" []
  = (Ret (0, Some ["foo.raw"]), []).
Proof. split; reflexivity. Qed.

(* ================================================================== *)
(** * Image discoverer: properties                                      *)
(* ================================================================== *)

Section SortFacts.
Variable A : Type.
Variable compar : A -> A -> Z.
Hypothesis compar_total : forall a b, compar a b > 0 -> compar b a <= 0.

Lemma insert_sorted_perm (x : A) (l : list A) :
  Permutation (insert_sorted compar x l) (x :: l).
Proof.
  induction l as [|y l IH]; simpl; [apply Permutation_refl|].
  destruct (compar x y <=? 0); [apply Permutation_refl|].
  eapply perm_trans; [apply perm_skip, IH | apply perm_swap].
Qed.

Lemma sort_by_perm (l : list A) : Permutation (sort_by compar l) l.
Proof.
  induction l as [|x l IH]; simpl; [constructor|].
  eapply perm_trans; [apply insert_sorted_perm | now apply perm_skip].
Qed.



End SortFacts.


Section DiscoverFacts.
Variable w : world.
Variable path : string.




(** Every slot is written when the loop returns 0; the slot of the
    current entry is not when it returns early. *)
Lemma discover_loop_slots (de : list dirent) :
  forall (result : list string) (fs fs' : tmpfs) (r : Z) (a : name_array),
    discover_loop w path de result fs = (Ret (r, a), fs') ->
    (r = 0 /\ unwritten a = O) \/ (r < 0 /\ (0 < unwritten a)%nat).
Proof.
  induction de as [|d rest IH]; intros result fs fs' r a.
  - cbn [discover_loop]. intros H. inversion H. now left.
  - cbn [discover_loop]. destruct (d_type d); try apply IH.
    unfold bind at 1.
    destruct (readlink_malloc w path (d_name d) fs) as [[[r1 fn]|st| |] fs1] eqn:E;
      try discriminate.
    destruct (r1 <? 0) eqn:E1.
    + apply Z.ltb_lt in E1. intros H. inversion H; subst. right.
      split; [exact E1 | simpl; lia].
    + destruct fn as [fn|]; [|discriminate].
      destruct (strrchr fn "/") as [[? p]|]; apply IH.
Qed.

Lemma discover_images_slots (fs fs' : tmpfs) (r : Z) (a : option name_array) :
  discover_images w path fs = (Ret (r, a), fs') -> 0 <= r ->
  unwritten_of a = O.
Proof.
  unfold discover_images.
  destruct (scandir w path image_filter alphasort) as [errno|de].
  { intros H. now inversion H. }
  destruct (0 <? Z.of_nat (List.length de)).
  - unfold bind.
    destruct (discover_loop w path de [] fs) as [[[r1 a1]|st| |] fs1] eqn:E;
      try discriminate.
    intros H Hr. inversion H; subst.
    destruct (discover_loop_slots _ _ _ _ _ _ E) as [[_ U]|[Hneg _]];
      [exact U | lia].
  - intros H. now inversion H.
Qed.


End DiscoverFacts.



Example discover_images_of_the_spec :
  discover_images (Fixtures.store_world Fixtures.spec_directory) "/store" []
  = (Ret (0, Some {| written := ["a.img"; "b.raw"; "real-1.0.x86_64.raw"];
                     unwritten := O |}), []).
Proof. reflexivity. Qed.

(** The order is that of the entries' own names: a link keeps the place
    of its name, whatever its target is called. *)
Example discover_images_link_keeps_its_place :
  discover_images (Fixtures.store_world Fixtures.link_first_directory) "/store" []
  = (Ret (0, Some {| written := ["real-1.0.x86_64.raw"; "b.raw"];
                     unwritten := O |}), []).
Proof. reflexivity. Qed.


(* ================================================================== *)
(** * Metadata resolver: properties                                     *)
(* ================================================================== *)

Lemma strv_length_pos (lst : strv) (img : string) :
  In img (strv_list lst) -> (0 <? Z.of_nat (strv_length lst)) = true.
Proof.
  unfold strv_length. destruct (strv_list lst); [intros []|].
  intros _. apply Z.ltb_lt. simpl. lia.
Qed.


Section ResolverFacts.
Variable w : world.

Lemma image_read_metadata_cases (img : string) (fs : tmpfs) :
  exists r d fs',
    image_read_metadata w img fs = (Ret (r, d), fs') /\
    ((r < 0 /\ local_metadata_fails w img) \/
     (r = 0 /\ ~ local_metadata_fails w img /\
      exists content r',
        load_ext_release w img content = (r', d) /\ 0 <= r')).
Proof.
  unfold image_read_metadata, with_tempfile, local_metadata_fails.
  destruct (extract w (SYSEXT_STORE_DIR w) img) as [r content].
  destruct (r <? 0) eqn:E1.
  { apply Z.ltb_lt in E1. do 3 eexists. split; [reflexivity|]. left. lia. }
  destruct (0 <? r) eqn:E2.
  { apply Z.ltb_lt in E2. do 3 eexists. split; [reflexivity|].
    left. unfold EINVAL. lia. }
  apply Z.ltb_ge in E1, E2.
  destruct (load_ext_release w img content) as [r' image] eqn:EL.
  destruct (r' <? 0) eqn:E3.
  - apply Z.ltb_lt in E3. do 3 eexists. split; [reflexivity|].
    left. simpl. lia.
  - apply Z.ltb_ge in E3. do 3 eexists. split; [reflexivity|].
    right. split; [reflexivity|]. split.
    + simpl. lia.
    + now exists content, r'.
Qed.

(** [image_local_metadata], step by step. *)
Lemma image_local_metadata_run (store : string) (fs : tmpfs) :
  image_local_metadata w store fs =
  match discover_images w store fs with
  | (Ret (r0, arr), fs1) =>
      match unwritten_of arr with
      | S _ => (Undefined, fs1)
      | O =>
          if r0 <? 0 then (Ret (- r0, None, None), fs1)
          else if 0 <? Z.of_nat (List.length (names_of arr)) then
            match local_loop w (names_of arr) [] fs1 with
            | (Ret (inl (r, O)), fs2) => (Ret (r, None, None), fs2)
            | (Ret (inl (r, S _)), fs2) => (Undefined, fs2)
            | (Ret (inr images), fs2) =>
                (Ret (0, Some images, Some (List.length (names_of arr))), fs2)
            | (Exit st, fs2) => (Exit st, fs2)
            | (Fault, fs2) => (Fault, fs2)
            | (Undefined, fs2) => (Undefined, fs2)
            end
          else (Ret (0, None, Some (List.length (names_of arr))), fs1)
      end
  | (Exit st, fs1) => (Exit st, fs1)
  | (Fault, fs1) => (Fault, fs1)
  | (Undefined, fs1) => (Undefined, fs1)
  end.
Proof.
  unfold image_local_metadata. unfold bind at 1.
  destruct (discover_images w store fs) as [[[r0 arr]|st| |] fs1]; trivial.
  destruct (r0 <? 0).
  { unfold bind, walk_array. now destruct (unwritten_of arr). }
  unfold bind at 1. unfold walk_array at 1.
  destruct (unwritten_of arr); [|reflexivity]. unfold ret at 1.
  destruct (0 <? Z.of_nat (List.length (names_of arr))); [|reflexivity].
  unfold bind at 1.
  destruct (local_loop w (names_of arr) [] fs1) as [[[[r slots]|images]|st| |] fs2];
    trivial.
  unfold bind, walk_array. now destruct slots.
Qed.

(** [image_remote_metadata], step by step. *)
Lemma image_remote_metadata_run (url : string) (fs : tmpfs) :
  image_remote_metadata w url fs =
  match image_list_from_url w url fs with
  | (Ret (r0, lst), fs1) =>
      if r0 <? 0 then (Ret (- r0, None, None), fs1)
      else if 0 <? Z.of_nat (strv_length lst) then
        match remote_loop w url (strv_list lst) [] fs1 with
        | (Ret (inl (r, O)), fs2) => (Ret (r, None, None), fs2)
        | (Ret (inl (r, S _)), fs2) => (Undefined, fs2)
        | (Ret (inr images), fs2) =>
            (Ret (0, Some images, Some (strv_length lst)), fs2)
        | (Exit st, fs2) => (Exit st, fs2)
        | (Fault, fs2) => (Fault, fs2)
        | (Undefined, fs2) => (Undefined, fs2)
        end
      else (Ret (0, None, Some (strv_length lst)), fs1)
  | (Exit st, fs1) => (Exit st, fs1)
  | (Fault, fs1) => (Fault, fs1)
  | (Undefined, fs1) => (Undefined, fs1)
  end.
Proof.
  unfold image_remote_metadata. unfold bind at 1.
  destruct (image_list_from_url w url fs) as [[[r0 lst]|st| |] fs1]; trivial.
  destruct (r0 <? 0); [reflexivity|].
  destruct (0 <? Z.of_nat (strv_length lst)); [|reflexivity].
  unfold bind at 1.
  destruct (remote_loop w url (strv_list lst) [] fs1)
    as [[[[r slots]|images]|st| |] fs2]; trivial.
  unfold bind, walk_array. now destruct slots.
Qed.

Lemma image_json_from_url_cases (url img : string) (fs : tmpfs) :
  exists out fs',
    image_json_from_url w url img fs = (out, fs') /\
    ((exists r, out = Ret (r, None) /\ r < 0 /\
                remote_metadata_fails w url img) \/
     (exists d, out = Ret (0, Some d) /\ ~ remote_metadata_fails w url img) \/
     (out = Exit EXIT_FAILURE /\ ~ remote_metadata_fails w url img)).
Proof.
  pose proof (image_json_from_url_run w url img fs) as H. cbv zeta in H.
  unfold remote_metadata_fails.
  destruct (download w url (img ++ ".json")%string) as [r content].
  destruct (load_image_json w content) as [r' images].
  rewrite H. clear H.
  destruct (r <? 0) eqn:E1.
  { apply Z.ltb_lt in E1. do 2 eexists. split; [reflexivity|].
    left. exists r. auto. }
  destruct (r' <? 0) eqn:E2.
  { apply Z.ltb_lt in E2. do 2 eexists. split; [reflexivity|].
    left. exists r'. auto. }
  apply Z.ltb_ge in E1, E2.
  destruct images as [[|d [|d' rest]]|]; do 2 eexists;
    (split; [reflexivity|]).
  - left. exists (- ENOENT). unfold ENOENT. repeat split; auto.
  - right. left. exists d. split; [reflexivity|].
    intros [?|[?|[?|?]]]; try lia; discriminate.
  - right. right. split; [reflexivity|].
    intros [?|[?|[?|?]]]; try lia; discriminate.
  - left. exists (- ENOENT). unfold ENOENT. repeat split; auto.
Qed.


Hypothesis release_parser_contract :
  forall img content r d,
    load_ext_release w img content = (r, d) -> 0 <= r -> d <> None.




(** The value [image_read_metadata] returns does not depend on the
    temporary files there are. *)
Lemma image_read_metadata_value (img : string) (fs1 fs2 : tmpfs) :
  fst (image_read_metadata w img fs1) = fst (image_read_metadata w img fs2).
Proof.
  unfold image_read_metadata, with_tempfile.
  destruct (extract w (SYSEXT_STORE_DIR w) img) as [r content].
  destruct (r <? 0); [reflexivity|].
  destruct (0 <? r); [reflexivity|].
  destruct (load_ext_release w img content) as [r1 image].
  destruct (r1 <? 0); reflexivity.
Qed.

Lemma image_json_from_url_value (url img : string) (fs1 fs2 : tmpfs) :
  fst (image_json_from_url w url img fs1)
  = fst (image_json_from_url w url img fs2).
Proof.
  pose proof (image_json_from_url_run w url img fs1) as H1.
  pose proof (image_json_from_url_run w url img fs2) as H2.
  cbv zeta in H1, H2.
  destruct (download w url (img ++ ".json")%string) as [r content].
  destruct (load_image_json w content) as [r' images].
  rewrite H1, H2.
  destruct (r <? 0); [reflexivity|].
  destruct (r' <? 0); [reflexivity|].
  destruct images as [[|d [|d' rest]]|]; reflexivity.
Qed.

(** The loop stops at the first image that fails, with the slots of the
    images after it unwritten. *)
Lemma local_loop_first_failure (before : list string) (img : string)
      (after : list string) :
  Forall (fun p => ~ local_metadata_fails w p) before ->
  local_metadata_fails w img ->
  forall (images : list image_entry) (fs : tmpfs),
  exists r d fs1 fs',
    image_read_metadata w img fs1 = (Ret (r, d), fs') /\ r < 0 /\
    local_loop w (before ++ img :: after) images fs
    = (Ret (inl (r, List.length after)), fs').
Proof.
  intros Hok Hfail. induction Hok as [|p before Hp _ IH]; intros images fs.
  - destruct (image_read_metadata_cases img fs)
      as (r & d & fs' & Hrun & [[Hr _]|[_ [Hno _]]]); [|contradiction].
    exists r, d, fs, fs'. split; [exact Hrun|]. split; [exact Hr|].
    cbn [app local_loop]. unfold bind. rewrite Hrun.
    apply Z.ltb_lt in Hr. now rewrite Hr.
  - destruct (image_read_metadata_cases p fs)
      as (r & d & fs' & Hrun & [[_ Hyes]|[Hr _]]); [contradiction|].
    subst r. cbn [app local_loop]. unfold bind at 1. rewrite Hrun.
    cbn [Z.ltb Z.compare]. apply IH.
Qed.

Lemma remote_loop_first_failure (url : string) (before : list string)
      (img : string) (after : list string) :
  Forall (fun p => ~ remote_metadata_fails w url p) before ->
  remote_metadata_fails w url img ->
  forall (images : list image_entry) (fs : tmpfs),
  exists out fs',
    remote_loop w url (before ++ img :: after) images fs = (out, fs') /\
    ((out = Exit EXIT_FAILURE /\
      exists p, In p before /\
                fst (image_json_from_url w url p fs) = Exit EXIT_FAILURE) \/
     exists r fs1,
       image_json_from_url w url img fs1 = (Ret (r, None), fs') /\ r < 0 /\
       out = Ret (inl (- r, List.length after))).
Proof.
  intros Hok Hfail. induction Hok as [|p before Hp _ IH]; intros images fs.
  - destruct (image_json_from_url_cases url img fs)
      as (out & fs' & Hrun & [(r & -> & Hr & _)|[(d & _ & Hno)|(_ & Hno)]]);
      try contradiction.
    exists (Ret (inl (- r, List.length after))), fs'. split.
    + cbn [app remote_loop]. unfold bind. rewrite Hrun.
      apply Z.ltb_lt in Hr. now rewrite Hr.
    + right. exists r, fs. auto.
  - destruct (image_json_from_url_cases url p fs)
      as (out & fs' & Hrun & [(r & _ & _ & Hyes)|[(d & -> & _)|(-> & _)]]);
      [contradiction| |].
    + cbn [app remote_loop]. unfold bind at 1. rewrite Hrun.
      cbn [Z.ltb Z.compare].
      match goal with
      | |- context [remote_loop w url _ (images ++ [?e]) fs'] =>
          destruct (IH (images ++ [e]) fs') as (out & fs2 & Hloop & Hout)
      end.
      exists out, fs2. split; [exact Hloop|].
      destruct Hout as [(-> & q & Hin & Hq)|Hret]; [left | now right].
      split; [reflexivity|]. exists q. split; [now right|].
      now rewrite (image_json_from_url_value url q fs fs').
    + exists (Exit EXIT_FAILURE), fs'. split.
      * cbn [app remote_loop]. unfold bind at 1. now rewrite Hrun.
      * left. split; [reflexivity|]. exists p. split; [now left|].
        now rewrite Hrun.
Qed.

Lemma image_local_metadata_first_failure
      (store : string) (fs fs1 : tmpfs) (r0 : Z) (arr : option name_array)
      (before : list string) (img : string) (after : list string) :
  discover_images w store fs = (Ret (r0, arr), fs1) -> 0 <= r0 ->
  names_of arr = before ++ img :: after ->
  Forall (fun p => ~ local_metadata_fails w p) before ->
  local_metadata_fails w img ->
  exists r d fsa fs',
    image_read_metadata w img fsa = (Ret (r, d), fs') /\ r < 0 /\
    image_local_metadata w store fs = (early_return r after, fs').
Proof.
  intros D Hr0 Hlst Hok Hfail.
  destruct (local_loop_first_failure before img after Hok Hfail [] fs1)
    as (r & d & fsa & fs' & Hrun & Hr & Hloop).
  exists r, d, fsa, fs'. split; [exact Hrun|]. split; [exact Hr|].
  rewrite image_local_metadata_run, D.
  rewrite (discover_images_slots w store fs fs1 r0 arr D Hr0).
  apply Z.ltb_ge in Hr0. rewrite Hr0. rewrite Hlst, Hloop.
  replace (0 <? Z.of_nat (List.length (before ++ img :: after))) with true.
  - now destruct after.
  - symmetry. apply Z.ltb_lt. rewrite length_app. simpl. lia.
Qed.

Lemma image_remote_metadata_first_failure
      (url : string) (fs fs1 : tmpfs) (r0 : Z) (lst : strv)
      (before : list string) (img : string) (after : list string) :
  image_list_from_url w url fs = (Ret (r0, lst), fs1) -> 0 <= r0 ->
  strv_list lst = before ++ img :: after ->
  Forall (fun p => ~ remote_metadata_fails w url p) before ->
  remote_metadata_fails w url img ->
  exists out fs',
    image_remote_metadata w url fs = (out, fs') /\
    ((out = Exit EXIT_FAILURE /\
      exists p, In p before /\
                fst (image_json_from_url w url p fs) = Exit EXIT_FAILURE) \/
     exists r fsa,
       image_json_from_url w url img fsa = (Ret (r, None), fs') /\ r < 0 /\
       out = early_return (- r) after).
Proof.
  intros D Hr0 Hlst Hok Hfail.
  destruct (remote_loop_first_failure url before img after Hok Hfail [] fs1)
    as (out & fs' & Hloop & Hout).
  assert (Hin : In img (strv_list lst)) by (rewrite Hlst; apply in_elt).
  rewrite image_remote_metadata_run, D.
  apply Z.ltb_ge in Hr0. rewrite Hr0.
  rewrite (strv_length_pos lst img Hin), Hlst, Hloop.
  destruct Hout as [(-> & q & Hq1 & Hq2)|(r & fsa & Hrun & Hr & ->)].
  - do 2 eexists. split; [reflexivity|]. left. split; [reflexivity|].
    exists q. split; [exact Hq1|].
    now rewrite (image_json_from_url_value url q fs fs1).
  - exists (early_return (- r) after), fs'. split; [now destruct after|].
    right. now exists r, fsa.
Qed.

End ResolverFacts.




(** The end-to-end example of the specification: 23.7 installed, 23.8 in
    the store, no URL. *)
Example get_latest_version_end_to_end :
  get_latest_version_3 Scenarios.world_23_8 Scenarios.installed_23_7 None []
  = (Ret (0, Some (Fixtures.entry_of "debug-tools" "23.8" "x86_64")), []).
Proof. reflexivity. Qed.

(* ================================================================== *)
(** * Error propagation                                                 *)
(* ================================================================== *)

Section JsonLoaderFacts.
Variable sd_json_parse_file : string -> Z * option JsonCommon.sd_json_variant.
Variable sd_json_dispatch :
  option JsonCommon.sd_json_variant -> JsonCommon.image_entry ->
  Z * JsonCommon.image_entry.

Lemma parse_image_entry_nonneg (json : option JsonCommon.sd_json_variant)
      (e : JsonCommon.image_entry) :
  0 <= fst (JsonCommon.parse_image_entry sd_json_dispatch json e).
Proof.
  unfold JsonCommon.parse_image_entry.
  destruct (sd_json_dispatch json e) as [r e1].
  destruct (r <? 0) eqn:E1; [apply Z.ltb_lt in E1; simpl; lia|].
  destruct (sd_json_dispatch (JsonCommon.sysext e1) e1) as [r2 e2].
  destruct (r2 <? 0) eqn:E2; [apply Z.ltb_lt in E2; simpl; lia|].
  simpl. lia.
Qed.

(** A failed [parse_image_entry] never stops the loop. *)
Lemma load_loop_nonneg (elements : list JsonCommon.sd_json_variant) :
  forall images,
    0 <= fst (JsonCommon.load_loop sd_json_dispatch elements images).
Proof.
  induction elements as [|e rest IH]; intros images;
    cbn [JsonCommon.load_loop]; [simpl; lia|].
  destruct (negb (JsonCommon.sd_json_variant_is_object (Some e)));
    [cbn [fst]; unfold EINVAL; lia|].
  pose proof (parse_image_entry_nonneg (Some e) JsonCommon.calloc_image_entry)
    as Hp.
  destruct (JsonCommon.parse_image_entry sd_json_dispatch (Some e)
                                         JsonCommon.calloc_image_entry)
    as [r entry].
  simpl in Hp. apply Z.ltb_ge in Hp. rewrite Hp. apply IH.
Qed.

Lemma load_image_entries_nonneg (path : string) :
  0 <= fst (JsonCommon.load_image_entries sd_json_parse_file
                                          sd_json_dispatch path).
Proof.
  unfold JsonCommon.load_image_entries.
  destruct (sd_json_parse_file path) as [r json].
  destruct (r <? 0) eqn:E; [apply Z.ltb_lt in E; simpl; lia|].
  destruct (JsonCommon.sd_json_variant_is_array json).
  - pose proof (load_loop_nonneg (JsonCommon.sd_json_variant_elements json) [])
      as H.
    destruct (JsonCommon.load_loop sd_json_dispatch
                (JsonCommon.sd_json_variant_elements json) []) as [r1 images].
    exact H.
  - pose proof (parse_image_entry_nonneg json JsonCommon.calloc_image_entry)
      as H.
    destruct (JsonCommon.parse_image_entry sd_json_dispatch json
                                           JsonCommon.calloc_image_entry)
      as [r1 entry].
    exact H.
Qed.
End JsonLoaderFacts.

(** C4 at its failing inputs.  The download of SHA256SUMS fails with
    [-ENOENT] and the store directory cannot be read: [image_list_from_url]
    returns -2, [image_remote_metadata] turns it into +2 and
    [image_local_metadata] does the same with the scan error, and
    [get_latest_version], which tests [r < 0], returns 0 with no update.
    In json-common.c, a document whose two objects are both rejected by
    the dispatch is loaded with return value 0; no return value of
    [load_image_entries] is negative. *)
Theorem failures_returned_as_success :
  let w := Fixtures.unreadable_world in
  let url := "https://example.org/sysext" in
  fst (image_list_from_url w url []) = Ret (- ENOENT, None) /\
  fst (image_remote_metadata w url []) = Ret (ENOENT, None, None) /\
  fst (discover_images w (SYSEXT_STORE_DIR w) []) = Ret (- ENOENT, None) /\
  fst (image_local_metadata w (SYSEXT_STORE_DIR w) []) = Ret (ENOENT, None, None) /\
  fst (get_latest_version_3 w Fixtures.installed_1_0 (Some url) [])
    = Ret (0, None) /\
  JsonCommon.load_image_entries Fixtures.parse_two_objects
                                Fixtures.dispatch_rejects "images.json"
    = (0, Some [JsonCommon.calloc_image_entry; JsonCommon.calloc_image_entry]) /\
  (forall parse dispatch path,
     0 <= fst (JsonCommon.load_image_entries parse dispatch path)).
Proof.
  repeat split; try reflexivity.
  intros parse dispatch path. apply load_image_entries_nonneg.
Qed.

(* ================================================================== *)
(** * Version comparator and name normalizer: further properties        *)
(* ================================================================== *)

Lemma strcmp_le_trans (a b c : string) :
  strcmp a b <= 0 -> strcmp b c <= 0 -> strcmp a c <= 0.
Proof.
  intros H1 H2.
  destruct (Z_lt_le_dec 0 (strcmp a c)) as [Hpos|Hle]; [exfalso | exact Hle].
  assert (Hca : strcmp c a < 0) by (rewrite (strcmp_antisym a c); lia).
  pose proof (strcmp_le_lt_trans b c a H2 Hca) as Hba.
  rewrite (strcmp_antisym a b) in Hba. lia.
Qed.

Lemma strcmp_zero_eq (a b : string) :
  occurs "000" a = false -> occurs "000" b = false ->
  strcmp a b = 0 -> a = b.
Proof.
  revert b. induction a as [|x ta IH]; intros [|y tb]; simpl.
  - reflexivity.
  - intros _ Hy H. apply orb_false_iff in Hy. destruct Hy as [Hy _].
    apply Ascii.eqb_neq in Hy. pose proof (byte_neq _ _ Hy).
    rewrite byte_nul in *. lia.
  - intros Hx _ H. apply orb_false_iff in Hx. destruct Hx as [Hx _].
    apply Ascii.eqb_neq in Hx. pose proof (byte_neq _ _ Hx).
    rewrite byte_nul in *. lia.
  - intros Hx Hy. apply orb_false_iff in Hx, Hy.
    destruct Hx as [Hx Hta], Hy as [Hy Htb].
    destruct (Ascii.eqb_spec x y) as [->|Hxy].
    + rewrite Hy. intros H. f_equal. now apply IH.
    + intros H. pose proof (byte_neq _ _ Hxy). lia.
Qed.

(** X1.  [version_cmp] keeps the contract the selection relies on: it is
    reflexive, its sign flips when the arguments are swapped, "not
    greater" is transitive, and on strings without a NUL byte it is 0 only
    for equal strings. *)
Theorem version_cmp_total_preorder :
  (forall a, version_cmp a a = 0) /\
  (forall a b, version_cmp b a = - version_cmp a b) /\
  (forall a b c, version_cmp a b <= 0 -> version_cmp b c <= 0 ->
                 version_cmp a c <= 0) /\
  (forall a b, occurs "000" a = false -> occurs "000" b = false ->
               version_cmp a b = 0 -> a = b).
Proof.
  unfold version_cmp. split; [exact strcmp_refl|].
  split; [intros a b; apply strcmp_antisym|].
  split; [exact strcmp_le_trans | exact strcmp_zero_eq].
Qed.

Lemma version_cmp_total_preorder_witness :
  version_cmp "1.0" "1.2" <= 0 /\ ("23.7" = "23.7").
Proof.
  split.
  - apply (proj1 (proj2 (proj2 version_cmp_total_preorder)) "1.0" "1.1" "1.2");
      vm_compute; discriminate.
  - apply (proj2 (proj2 (proj2 version_cmp_total_preorder)) "23.7" "23.7");
      reflexivity.
Defined.

Lemma cut_last_prefix (c : ascii) (s : string) : starts_with s (cut_last c s).
Proof.
  unfold starts_with, cut_last.
  destruct (strrchr s c) as [[before after]|] eqn:E.
  - apply strrchr_some in E. destruct E as [E _]. now exists (String c after).
  - exists "". now rewrite append_nil_r.
Qed.

Lemma starts_with_trans (a b c : string) :
  starts_with a b -> starts_with b c -> starts_with a c.
Proof.
  intros [r1 H1] [r2 H2]. exists (r2 ++ r1)%string.
  now rewrite <- append_assoc, <- H2.
Qed.

Lemma append_length (a b : string) :
  String.length (a ++ b) = (String.length a + String.length b)%nat.
Proof. induction a as [|x a IH]; simpl; [reflexivity | now rewrite IH]. Qed.

Lemma cut_last_length (c : ascii) (s : string) :
  (String.length (cut_last c s) <= String.length s)%nat.
Proof.
  destruct (cut_last_prefix c s) as [rest H].
  rewrite H at 2. rewrite append_length. lia.
Qed.

Lemma cut_last_shorter (c : ascii) (s : string) :
  occurs c s = true -> (String.length (cut_last c s) < String.length s)%nat.
Proof.
  intros H. destruct (cut_last_present c s H) as (seg & _ & E).
  rewrite E at 2. rewrite append_length. simpl. lia.
Qed.

(** X2.  The normalized name is always a beginning of the file name, and
    it is the whole file name exactly when the file name has neither a
    '.' nor a '-'. *)
Theorem normalize_name_prefix (f : string) :
  starts_with f (normalize_name f) /\
  (normalize_name f = f <-> occurs "." f = false /\ occurs "-" f = false).
Proof.
  unfold normalize_name. split.
  - eapply starts_with_trans; [apply (cut_last_prefix "." f)|].
    eapply starts_with_trans; [apply (cut_last_prefix "." (cut_last "." f))|].
    apply cut_last_prefix.
  - split.
    + intros H.
      pose proof (cut_last_length "-" (cut_last "." (cut_last "." f))) as L3.
      pose proof (cut_last_length "." (cut_last "." f)) as L2.
      pose proof (cut_last_length "." f) as L1.
      destruct (occurs "." f) eqn:Hdot.
      * pose proof (cut_last_shorter "." f Hdot). rewrite H in L3. lia.
      * split; [reflexivity|].
        rewrite !(cut_last_absent "." f Hdot) in H.
        destruct (occurs "-" f) eqn:Hdash; [|reflexivity].
        pose proof (cut_last_shorter "-" f Hdash). rewrite H in *. lia.
    + intros [Hdot Hdash].
      rewrite !(cut_last_absent "." f Hdot). now apply cut_last_absent.
Qed.


Lemma normalize_name_prefix_witness :
  normalize_name "noversion" = "noversion".
Proof.
  apply (proj2 (proj2 (normalize_name_prefix "noversion"))).
  split; reflexivity.
Defined.

(* ================================================================== *)
(** * Image discoverer: error and edge behaviour                        *)
(* ================================================================== *)

Section DiscoverStatus.
Variable w : world.
Variable path : string.

Lemma readlink_malloc_run (nm : string) (fs : tmpfs) :
  match lstat w path nm with
  | inl errno =>
      readlink_malloc w path nm fs = (Ret (- Zpos (perror w errno), None), fs)
  | inr st_size =>
      match readlink w path nm with
      | inl errno =>
          readlink_malloc w path nm fs = (Ret (- Zpos errno, None), fs)
      | inr target =>
          readlink_malloc w path nm fs =
          if Z.of_nat (String.length target)
             <? (if st_size =? 0 then PATH_MAX else st_size + 1)
          then (Ret (0, Some target), fs)
          else (Exit EXIT_FAILURE, fs)
      end
  end.
Proof.
  unfold readlink_malloc.
  destruct (lstat w path nm) as [e|st_size]; [reflexivity|].
  destruct (readlink w path nm) as [e|target]; [reflexivity|].
  destruct (Z.of_nat (String.length target)
            <? (if st_size =? 0 then PATH_MAX else st_size + 1)) eqn:E.
  - apply Z.ltb_lt in E.
    replace (Z.min _ _ =? _) with false; [reflexivity|].
    symmetry. apply Z.eqb_neq. lia.
  - apply Z.ltb_ge in E.
    replace (Z.min _ _ =? _) with true; [reflexivity|].
    symmetry. apply Z.eqb_eq. lia.
Qed.

Lemma discover_loop_status (de : list dirent) :
  forall (result : list string) (fs fs' : tmpfs) (r : Z) (a : name_array),
    discover_loop w path de result fs = (Ret (r, a), fs') ->
    fs' = fs /\ r <= 0 /\
    (List.length (written a) + unwritten a
     = List.length result + List.length de)%nat /\
    (r < 0 -> link_error w path de r).
Proof.
  induction de as [|d rest IH]; intros result fs fs' r a H.
  - inversion H; subst. simpl. repeat split; lia.
  - assert (Hnext : forall nm,
              discover_loop w path rest (result ++ [nm]) fs = (Ret (r, a), fs') ->
              fs' = fs /\ r <= 0 /\
              (List.length (written a) + unwritten a
               = List.length result + List.length (d :: rest))%nat /\
              (r < 0 -> link_error w path (d :: rest) r)).
    { intros nm Hrun. destruct (IH _ _ _ _ _ Hrun) as (E & Hr & Hlen & Herr).
      split; [exact E|]. split; [exact Hr|]. split.
      - rewrite Hlen, length_app. simpl. lia.
      - intros Hneg. destruct (Herr Hneg) as (d' & fn & fsa & fsb & Hin & Hrest).
        exists d', fn, fsa, fsb. split; [now right | exact Hrest]. }
    cbn [discover_loop] in H.
    destruct (d_type d) eqn:Hty; try (apply (Hnext (d_name d)); exact H).
    unfold bind at 1 in H.
    pose proof (readlink_malloc_run (d_name d) fs) as Hout.
    destruct (lstat w path (d_name d)) as [e|st_size] eqn:Hl.
    { rewrite Hout in H.
      assert (E : (- Zpos (perror w e) <? 0) = true) by now apply Z.ltb_lt.
      rewrite E in H. inversion H; subst. cbn [written unwritten].
      split; [reflexivity|]. split; [lia|]. split; [reflexivity|].
      intros _. exists d, None, fs', fs'. split; [now left|].
      split; [exact Hty | exact Hout]. }
    destruct (readlink w path (d_name d)) as [e|target] eqn:Hr.
    { rewrite Hout in H.
      assert (E : (- Zpos e <? 0) = true) by now apply Z.ltb_lt.
      rewrite E in H. inversion H; subst. cbn [written unwritten].
      split; [reflexivity|]. split; [lia|]. split; [reflexivity|].
      intros _. exists d, None, fs', fs'. split; [now left|].
      split; [exact Hty | exact Hout]. }
    rewrite Hout in H. destruct (_ <? _); [|discriminate].
    cbn [Z.ltb Z.compare] in H.
    destruct (strrchr target "/") as [[before p]|];
      [apply (Hnext p) | apply (Hnext target)]; exact H.
Qed.

End DiscoverStatus.


(** [lstat] fails with ENOENT and [perror] leaves EINVAL in errno: the
    status is -22, not -2. *)
Example readlink_malloc_after_perror :
  lstat Scenarios.world_lost_link "/store" "z.raw" = inl 2%positive /\
  readlink_malloc Scenarios.world_lost_link "/store" "z.raw" []
  = (Ret (-22, None), []).
Proof. split; reflexivity. Qed.

(** X4.  Whenever [discover_images] returns, its status is 0 or negative
    and the temporary files are untouched.  A failed directory scan gives
    its negated errno and no result.  With status 0 every slot of the
    result is written, one name per directory entry that ends in ".raw"
    or ".img".  Any other negative status is the one [readlink_malloc]
    returned for an entry that the scan reports as a symbolic link, and
    the result array is then left with at least one slot that was never
    written. *)
Theorem discover_images_status
        (w : world) (path : string) (fs fs' : tmpfs) (r : Z)
        (result : option name_array) :
  discover_images w path fs = (Ret (r, result), fs') ->
  r <= 0 /\ fs' = fs /\
  (forall errno, readdir_all w path = inl errno ->
                 r = - Zpos errno /\ result = None) /\
  (forall entries, readdir_all w path = inr entries ->
     (List.length (names_of result) + unwritten_of result
      = List.length (List.filter image_filter entries))%nat /\
     (r = 0 -> unwritten_of result = O) /\
     (r < 0 -> (0 < unwritten_of result)%nat /\
               link_error w path (List.filter image_filter entries) r)).
Proof.
  unfold discover_images, scandir.
  destruct (readdir_all w path) as [e|entries].
  { intros H. inversion H; subst.
    split; [lia|]. split; [reflexivity|]. split.
    - intros errno E. inversion E; subst. split; reflexivity.
    - intros entries E. discriminate. }
  pose proof (sort_by_perm dirent alphasort (List.filter image_filter entries))
    as Hperm.
  set (de := sort_by alphasort (List.filter image_filter entries)) in *.
  destruct (0 <? Z.of_nat (List.length de)) eqn:En.
  - unfold bind. intros H.
    destruct (discover_loop w path de [] fs) as [[[r1 a]|st| |] fs1] eqn:Hloop;
      try discriminate.
    inversion H; subst.
    destruct (discover_loop_status w path de _ _ _ _ _ Hloop)
      as (-> & Hr & Hlen & Herr).
    split; [exact Hr|]. split; [reflexivity|]. split.
    + intros errno E. discriminate.
    + intros entries' E. inversion E; subst entries'.
      cbn [names_of unwritten_of]. split; [|split].
      * rewrite Hlen. simpl. now apply Permutation_length.
      * intros H0.
        destruct (discover_loop_slots w path de _ _ _ _ _ Hloop)
          as [[_ U]|[Hneg _]]; [exact U | lia].
      * intros Hneg.
        destruct (discover_loop_slots w path de _ _ _ _ _ Hloop)
          as [[H0 _]|[_ U]]; [lia|].
        split; [exact U|].
        destruct (Herr Hneg) as (d & fn & fsa & fsb & Hin & Hrest).
        exists d, fn, fsa, fsb. split; [|exact Hrest].
        now apply (Permutation_in _ Hperm).
  - intros H. inversion H; subst.
    split; [lia|]. split; [reflexivity|]. split.
    + intros errno E. discriminate.
    + intros entries' E. inversion E; subst entries'. cbn [names_of unwritten_of].
      split; [|split; [reflexivity | lia]].
      apply Z.ltb_ge in En. apply Permutation_length in Hperm.
      destruct de; simpl in *; [now rewrite <- Hperm | lia].
Qed.

Lemma discover_images_status_witness :
  -22 <= 0 /\ ([] : tmpfs) = [] /\
  (forall errno,
     readdir_all Scenarios.world_lost_link "/store" = inl errno ->
     -22 = - Zpos errno /\
     Some {| written := ["a.img"; "b.raw"]; unwritten := 1 |} = None) /\
  (forall entries,
     readdir_all Scenarios.world_lost_link "/store" = inr entries ->
     (List.length ["a.img"; "b.raw"] + 1
      = List.length (List.filter image_filter entries))%nat /\
     (-22 = 0 -> 1%nat = O) /\
     (-22 < 0 -> (0 < 1)%nat /\
                 link_error Scenarios.world_lost_link "/store"
                            (List.filter image_filter entries) (-22))).
Proof.
  apply (discover_images_status Scenarios.world_lost_link "/store" [] []
           (-22) (Some {| written := ["a.img"; "b.raw"]; unwritten := 1 |})).
  reflexivity.
Defined.

(* ================================================================== *)
(** * Metadata readers: status values and temporary files               *)
(* ================================================================== *)

(** X5.  [image_read_metadata] always returns, with a status that is 0 or
    negative: a negative status of [extract] is passed on, a positive one
    becomes [-EINVAL], and then the parser is not consulted; a record is
    handed out only with status 0. *)
Theorem image_read_metadata_status (w : world) (img : string) (fs : tmpfs) :
  exists r d fs',
    image_read_metadata w img fs = (Ret (r, d), fs') /\
    r <= 0 /\ (r <> 0 -> d = None) /\
    (fst (extract w (SYSEXT_STORE_DIR w) img) < 0 ->
     r = fst (extract w (SYSEXT_STORE_DIR w) img)) /\
    (0 < fst (extract w (SYSEXT_STORE_DIR w) img) -> r = - EINVAL).
Proof.
  unfold image_read_metadata, with_tempfile.
  destruct (extract w (SYSEXT_STORE_DIR w) img) as [r0 content]. cbn [fst].
  destruct (r0 <? 0) eqn:E1.
  { apply Z.ltb_lt in E1. do 3 eexists. split; [reflexivity|].
    split; [lia|]. split; [reflexivity|]. split; [reflexivity | lia]. }
  destruct (0 <? r0) eqn:E2.
  { apply Z.ltb_lt in E2. do 3 eexists. split; [reflexivity|].
    split; [unfold EINVAL; lia|]. split; [reflexivity|].
    split; [lia | reflexivity]. }
  apply Z.ltb_ge in E1, E2.
  destruct (load_ext_release w img content) as [r1 image].
  destruct (r1 <? 0) eqn:E3.
  - apply Z.ltb_lt in E3. do 3 eexists. split; [reflexivity|].
    split; [lia|]. split; [reflexivity|]. split; lia.
  - do 3 eexists. split; [reflexivity|].
    split; [lia|]. split; [congruence|]. split; lia.
Qed.

Lemma image_read_metadata_status_witness :
  exists r d fs',
    image_read_metadata Scenarios.world_bad_image
                        "debug-tools-23.8.x86_64.raw" []
    = (Ret (r, d), fs') /\
    r = - EINVAL.
Proof.
  destruct (image_read_metadata_status Scenarios.world_bad_image
                                       "debug-tools-23.8.x86_64.raw" [])
    as (r & d & fs' & Hrun & _ & _ & _ & Hpos).
  exists r, d, fs'. split; [exact Hrun|]. apply Hpos. reflexivity.
Defined.


Section CleanReturns.
Variable w : world.

Lemma returns_clean_ret {A} (a : A) (fs : tmpfs) : returns_clean (ret a) fs.
Proof. intros b fs' H. now inversion H. Qed.

Lemma returns_clean_bind {A B} (m : M A) (k : A -> M B) (fs : tmpfs) :
  returns_clean m fs -> (forall a, returns_clean (k a) fs) ->
  returns_clean (bind m k) fs.
Proof.
  intros Hm Hk b fs' H. unfold bind in H.
  destruct (m fs) as [[a|st| |] fs1] eqn:E; try discriminate.
  rewrite (Hm a fs1 E) in H. exact (Hk a b fs' H).
Qed.

(** A scope whose body leaves the files alone gives back the files there
    were, provided [mkostemp_safe] made a new name. *)
Lemma with_tempfile_clean {A} (template : string) (body : string -> M A)
      (fs : tmpfs) :
  ~ In (mkostemp_safe w template fs) fs ->
  returns_clean (body (mkostemp_safe w template fs))
                (mkostemp_safe w template fs :: fs) ->
  returns_clean (with_tempfile w template body) fs.
Proof.
  intros Hfresh Hbody a fs' H. unfold with_tempfile in H.
  destruct (body (mkostemp_safe w template fs) (mkostemp_safe w template fs :: fs))
    as [[b|st| |] fs1] eqn:E; try discriminate.
  pose proof (Hbody b fs1 E) as Hfs1. inversion H; subst.
  unfold unlink. simpl.
  destruct (string_dec (mkostemp_safe w template fs) (mkostemp_safe w template fs));
    [|contradiction].
  now apply notin_remove.
Qed.

Lemma manifest_loop_clean (lines result : list string) (fs : tmpfs) :
  returns_clean (manifest_loop lines result) fs.
Proof.
  revert result. induction lines as [|raw rest IH]; intros result; simpl.
  - apply returns_clean_ret.
  - destruct (endswith (c_str (chomp raw)) ".raw"
              || endswith (c_str (chomp raw)) ".img"); [|apply IH].
    destruct (strchr (c_str (chomp raw)) " "); [apply IH|].
    intros a fs' H. discriminate.
Qed.

Lemma walk_array_clean (slots : nat) (fs : tmpfs) :
  returns_clean (walk_array slots) fs.
Proof.
  destruct slots; [apply returns_clean_ret|]. intros a fs' H. discriminate.
Qed.

Lemma check_if_newer_clean (old new : image_entry) (update : option image_entry)
      (fs : tmpfs) :
  returns_clean (check_if_newer old new update) fs.
Proof.
  intros a fs' H. unfold check_if_newer in H.
  destruct (deps old); [|discriminate].
  destruct (deps new); [|discriminate].
  destruct (_ && _); [|now inversion H].
  destruct update as [u|]; [|now inversion H].
  destruct (deps u); [|discriminate].
  destruct (_ >=? _); now inversion H.
Qed.

Lemma scan_images_clean (curr : image_entry) (n : nat) :
  forall (images : list image_entry) (update : option image_entry) (fs : tmpfs),
    returns_clean (scan_images curr images n update) fs.
Proof.
  induction n as [|n IH]; intros images update fs;
    destruct images as [|e rest]; simpl;
    try apply returns_clean_ret.
  - intros a fs' H; discriminate.
  - apply returns_clean_bind; [apply check_if_newer_clean|].
    intros [[r e'] u]. apply IH.
Qed.

Lemma discover_images_clean (path : string) (fs : tmpfs) :
  returns_clean (discover_images w path) fs.
Proof.
  intros [r result] fs' H. unfold discover_images in H.
  destruct (scandir w path image_filter alphasort) as [e|de];
    [now inversion H|].
  destruct (0 <? Z.of_nat (List.length de)); [|now inversion H].
  unfold bind in H.
  destruct (discover_loop w path de [] fs) as [[[r1 res]|st| |] fs1] eqn:E;
    try discriminate.
  inversion H; subst.
  now destruct (discover_loop_status w path de _ _ _ _ _ E).
Qed.

Variable fs : tmpfs.
Hypothesis fresh : forall template, ~ In (mkostemp_safe w template fs) fs.

Lemma image_read_metadata_clean (img : string) :
  returns_clean (image_read_metadata w img) fs.
Proof.
  apply with_tempfile_clean; [apply fresh|].
  destruct (extract w (SYSEXT_STORE_DIR w) img) as [r content].
  destruct (r <? 0); [apply returns_clean_ret|].
  destruct (0 <? r); [apply returns_clean_ret|].
  destruct (load_ext_release w img content) as [r1 image].
  destruct (r1 <? 0); apply returns_clean_ret.
Qed.

Lemma image_json_from_url_clean (url img : string) :
  returns_clean (image_json_from_url w url img) fs.
Proof.
  apply with_tempfile_clean; [apply fresh|]. cbv zeta.
  destruct (download w url (img ++ ".json")%string) as [r content].
  destruct (r <? 0); [apply returns_clean_ret|].
  destruct (load_image_json w content) as [r1 images].
  destruct (r1 <? 0); [apply returns_clean_ret|].
  destruct images as [[|d [|d' rest]]|]; try apply returns_clean_ret.
  intros a fs' H. discriminate.
Qed.

Lemma image_list_from_url_clean (url : string) :
  returns_clean (image_list_from_url w url) fs.
Proof.
  apply with_tempfile_clean; [apply fresh|].
  destruct (download w url "SHA256SUMS") as [r content].
  destruct (r <? 0); [apply returns_clean_ret|].
  destruct (fdopen w _); [apply returns_clean_ret|].
  apply returns_clean_bind; [apply manifest_loop_clean|].
  intros result. apply returns_clean_ret.
Qed.

Lemma local_loop_clean (lst : list string) :
  forall images, returns_clean (local_loop w lst images) fs.
Proof.
  induction lst as [|fn rest IH]; intros images; cbn [local_loop].
  - apply returns_clean_ret.
  - apply returns_clean_bind; [apply image_read_metadata_clean|].
    intros [r d]. destruct (r <? 0); [apply returns_clean_ret | apply IH].
Qed.

Lemma remote_loop_clean (url : string) (lst : list string) :
  forall images, returns_clean (remote_loop w url lst images) fs.
Proof.
  induction lst as [|fn rest IH]; intros images; cbn [remote_loop].
  - apply returns_clean_ret.
  - apply returns_clean_bind; [apply image_json_from_url_clean|].
    intros [r d]. destruct (r <? 0); [apply returns_clean_ret | apply IH].
Qed.

Lemma image_local_metadata_clean (store : string) :
  returns_clean (image_local_metadata w store) fs.
Proof.
  unfold image_local_metadata.
  apply returns_clean_bind; [apply discover_images_clean|].
  intros [r lst]. destruct (r <? 0).
  { apply returns_clean_bind; [apply walk_array_clean|].
    intros []. apply returns_clean_ret. }
  apply returns_clean_bind; [apply walk_array_clean|]. intros [].
  destruct (0 <? _); [|apply returns_clean_ret].
  apply returns_clean_bind; [apply local_loop_clean|].
  intros [[r1 slots]|images]; [|apply returns_clean_ret].
  apply returns_clean_bind; [apply walk_array_clean|].
  intros []. apply returns_clean_ret.
Qed.

Lemma image_remote_metadata_clean (url : string) :
  returns_clean (image_remote_metadata w url) fs.
Proof.
  unfold image_remote_metadata.
  apply returns_clean_bind; [apply image_list_from_url_clean|].
  intros [r lst]. destruct (r <? 0); [apply returns_clean_ret|].
  destruct (0 <? _); [|apply returns_clean_ret].
  apply returns_clean_bind; [apply remote_loop_clean|].
  intros [[r1 slots]|images]; [|apply returns_clean_ret].
  apply returns_clean_bind; [apply walk_array_clean|].
  intros []. apply returns_clean_ret.
Qed.

Lemma get_latest_version_3_clean (curr : image_entry) (url : option string) :
  returns_clean (get_latest_version_3 w curr url) fs.
Proof.
  unfold get_latest_version_3, get_latest_version.
  apply returns_clean_bind.
  { destruct url; [apply image_remote_metadata_clean | apply returns_clean_ret]. }
  intros [[r images_remote] n_remote].
  destruct (r <? 0); [apply returns_clean_ret|].
  apply returns_clean_bind; [apply scan_images_clean|]. intros update.
  apply returns_clean_bind; [apply image_local_metadata_clean|].
  intros [[r2 images_local] n_local].
  destruct (r2 <? 0); [apply returns_clean_ret|].
  apply returns_clean_bind; [apply scan_images_clean|]. intros update2.
  apply returns_clean_ret.
Qed.

End CleanReturns.

(** X7.  When [mkostemp_safe] makes names that do not exist yet, every
    call that returns leaves exactly the temporary files it found: the
    three readers remove the file they created and no other, and so do
    the two metadata listings and [get_latest_version], whatever the
    number of images and whichever of them fails. *)
Theorem returning_calls_leave_no_tempfile (w : world) (fs : tmpfs) :
  (forall template, ~ In (mkostemp_safe w template fs) fs) ->
  (forall img, returns_clean (image_read_metadata w img) fs) /\
  (forall url img, returns_clean (image_json_from_url w url img) fs) /\
  (forall url, returns_clean (image_list_from_url w url) fs) /\
  (forall store, returns_clean (image_local_metadata w store) fs) /\
  (forall url, returns_clean (image_remote_metadata w url) fs) /\
  (forall curr url, returns_clean (get_latest_version_3 w curr url) fs).
Proof.
  intros fresh.
  split; [intros img; now apply image_read_metadata_clean|].
  split; [intros url img; now apply image_json_from_url_clean|].
  split; [intros url; now apply image_list_from_url_clean|].
  split; [intros store; now apply image_local_metadata_clean|].
  split; [intros url; now apply image_remote_metadata_clean|].
  intros curr url. now apply get_latest_version_3_clean.
Qed.

Lemma returning_calls_leave_no_tempfile_witness :
  returns_clean (image_local_metadata
                   (Fixtures.store_world Fixtures.spec_directory)
                   "/var/lib/sysext-store") [] /\
  snd (image_local_metadata (Fixtures.store_world Fixtures.spec_directory)
                            "/var/lib/sysext-store" []) = [].
Proof.
  split.
  - apply (proj1 (proj2 (proj2 (proj2
             (returning_calls_leave_no_tempfile
                (Fixtures.store_world Fixtures.spec_directory) []
                (fun _ H => H)))))).
  - reflexivity.
Defined.

(* ================================================================== *)
(** * Metadata listings: what the outputs hold                          *)
(* ================================================================== *)

Section ListingShape.
Variable w : world.

Lemma local_loop_length (lst : list string) :
  forall (images all : list image_entry) (fs fs' : tmpfs),
    local_loop w lst images fs = (Ret (inr all), fs') ->
    List.length all = (List.length images + List.length lst)%nat.
Proof.
  induction lst as [|fn rest IH]; intros images all fs fs' H.
  - inversion H; subst. simpl. lia.
  - cbn [local_loop] in H. unfold bind at 1 in H.
    destruct (image_read_metadata w fn fs) as [[[r d]|st| |] fs1];
      try discriminate.
    destruct (r <? 0); [discriminate|].
    rewrite (IH _ _ _ _ H), length_app. simpl. lia.
Qed.

Lemma local_loop_early (lst : list string) :
  forall (images : list image_entry) (fs fs' : tmpfs) (r : Z) (slots : nat),
    local_loop w lst images fs = (Ret (inl (r, slots)), fs') -> r < 0.
Proof.
  induction lst as [|fn rest IH]; intros images fs fs' r slots H.
  - discriminate.
  - cbn [local_loop] in H. unfold bind at 1 in H.
    destruct (image_read_metadata w fn fs) as [[[r1 d]|st| |] fs1];
      try discriminate.
    destruct (r1 <? 0) eqn:E.
    + inversion H; subst. now apply Z.ltb_lt.
    + exact (IH _ _ _ _ _ H).
Qed.

Lemma remote_loop_length (url : string) (lst : list string) :
  forall (images all : list image_entry) (fs fs' : tmpfs),
    remote_loop w url lst images fs = (Ret (inr all), fs') ->
    List.length all = (List.length images + List.length lst)%nat.
Proof.
  induction lst as [|fn rest IH]; intros images all fs fs' H.
  - inversion H; subst. simpl. lia.
  - cbn [remote_loop] in H. unfold bind at 1 in H.
    destruct (image_json_from_url w url fn fs) as [[[r d]|st| |] fs1];
      try discriminate.
    destruct (r <? 0); [discriminate|].
    rewrite (IH _ _ _ _ H), length_app. simpl. lia.
Qed.

Lemma remote_loop_early (url : string) (lst : list string) :
  forall (images : list image_entry) (fs fs' : tmpfs) (r : Z) (slots : nat),
    remote_loop w url lst images fs = (Ret (inl (r, slots)), fs') -> 0 < r.
Proof.
  induction lst as [|fn rest IH]; intros images fs fs' r slots H.
  - discriminate.
  - cbn [remote_loop] in H. unfold bind at 1 in H.
    destruct (image_json_from_url w url fn fs) as [[[r1 d]|st| |] fs1];
      try discriminate.
    destruct (r1 <? 0) eqn:E.
    + inversion H; subst. apply Z.ltb_lt in E. lia.
    + exact (IH _ _ _ _ _ H).
Qed.

Lemma strv_length_pos_inv (lst : strv) :
  (0 <? Z.of_nat (strv_length lst)) = true -> strv_length lst <> O.
Proof. intros H. apply Z.ltb_lt in H. lia. Qed.

Lemma image_local_metadata_shape
      (store : string) (fs fs' : tmpfs) (r : Z)
      (res : option (list image_entry)) (nr : option nat) :
  image_local_metadata w store fs = (Ret (r, res, nr), fs') ->
  listing_shape r res nr /\
  exists r0 arr fs1,
    discover_images w store fs = (Ret (r0, arr), fs1) /\
    ((r0 < 0 /\ r = - r0) \/ (0 <= r0 /\ r <= 0)).
Proof.
  rewrite image_local_metadata_run. unfold listing_shape.
  destruct (discover_images w store fs) as [[[r0 arr]|st| |] fs1] eqn:D;
    try discriminate.
  destruct (unwritten_of arr); [|discriminate].
  destruct (r0 <? 0) eqn:E0.
  { apply Z.ltb_lt in E0. intros H. inversion H; subst. split.
    - split; [reflexivity|]. split; [split; [lia | congruence]|].
      split; reflexivity.
    - do 3 eexists. split; [reflexivity|]. left. lia. }
  apply Z.ltb_ge in E0.
  destruct (0 <? Z.of_nat (List.length (names_of arr))) eqn:En.
  - destruct (local_loop w (names_of arr) [] fs1)
      as [[[[r1 [|slots]]|all]|st| |] fs2] eqn:L;
      try discriminate; intros H; inversion H; subst.
    + pose proof (local_loop_early _ _ _ _ _ _ L). split.
      * split; [reflexivity|]. split; [split; [lia | congruence]|].
        split; reflexivity.
      * do 3 eexists. split; [reflexivity|]. right. lia.
    + pose proof (local_loop_length _ _ _ _ _ L) as Hlen. simpl in Hlen.
      apply Z.ltb_lt in En. split.
      * split; [simpl; lia|]. split; [split; [discriminate | reflexivity]|].
        simpl. split; [discriminate|]. intros ->. simpl in Hlen. lia.
      * do 3 eexists. split; [reflexivity|]. right. lia.
  - intros H. inversion H; subst. split.
    + simpl. apply Z.ltb_ge in En.
      split; [lia|]. split; [split; [discriminate | reflexivity]|].
      split; reflexivity.
    + do 3 eexists. split; [reflexivity|]. right. lia.
Qed.

Lemma image_remote_metadata_shape
      (url : string) (fs fs' : tmpfs) (r : Z)
      (res : option (list image_entry)) (nr : option nat) :
  image_remote_metadata w url fs = (Ret (r, res, nr), fs') ->
  listing_shape r res nr /\
  exists r0 lst fs1,
    image_list_from_url w url fs = (Ret (r0, lst), fs1) /\
    (r0 < 0 -> r = - r0).
Proof.
  rewrite image_remote_metadata_run. unfold listing_shape.
  destruct (image_list_from_url w url fs) as [[[r0 lst]|st| |] fs1] eqn:D;
    try discriminate.
  destruct (r0 <? 0) eqn:E0.
  { apply Z.ltb_lt in E0. intros H. inversion H; subst. split.
    - split; [reflexivity|]. split; [split; [lia | congruence]|].
      split; reflexivity.
    - do 3 eexists. split; [reflexivity|]. reflexivity. }
  apply Z.ltb_ge in E0.
  assert (Hsrc : exists r0' lst' fs1',
             (Ret (r0, lst), fs1) = (Ret (r0', lst'), fs1') /\
             (r0' < 0 -> r = - r0'))
    by (do 3 eexists; split; [reflexivity | lia]).
  destruct (0 <? Z.of_nat (strv_length lst)) eqn:En.
  - destruct (remote_loop w url (strv_list lst) [] fs1)
      as [[[[r1 [|slots]]|all]|st| |] fs2] eqn:L;
      try discriminate; intros H; inversion H; subst.
    + pose proof (remote_loop_early _ _ _ _ _ _ _ L). split; [|exact Hsrc].
      split; [reflexivity|]. split; [split; [lia | congruence]|].
      split; reflexivity.
    + pose proof (remote_loop_length _ _ _ _ _ _ L) as Hlen. simpl in Hlen.
      pose proof (strv_length_pos_inv _ En) as Hpos. unfold strv_length in *.
      split; [|exact Hsrc].
      split; [simpl; lia|]. split; [split; [discriminate | reflexivity]|].
      simpl. split; [discriminate|]. intros ->. simpl in Hlen. lia.
  - intros H. inversion H; subst. split; [|exact Hsrc].
    simpl. apply Z.ltb_ge in En.
    split; [lia|]. split; [split; [discriminate | reflexivity]|].
    split; reflexivity.
Qed.

End ListingShape.

(** X8.  Whenever a metadata listing returns, its outputs agree: the
    count written to [*nr] is the number of entries of the array, it is
    written exactly when the return value is 0, and the array is written
    only when it has an entry.  A failure of the name listing comes back
    with its sign flipped: [image_local_metadata] returns a positive
    value exactly when [discover_images] failed, the negated status of
    [discover_images]; [image_remote_metadata] returns the negated status
    of [image_list_from_url] when that one failed. *)
Theorem listing_outputs_agree (w : world) :
  (forall store fs fs' r res nr,
     image_local_metadata w store fs = (Ret (r, res, nr), fs') ->
     listing_shape r res nr /\
     exists r0 arr fs1,
       discover_images w store fs = (Ret (r0, arr), fs1) /\
       ((r0 < 0 /\ r = - r0) \/ (0 <= r0 /\ r <= 0))) /\
  (forall url fs fs' r res nr,
     image_remote_metadata w url fs = (Ret (r, res, nr), fs') ->
     listing_shape r res nr /\
     exists r0 lst fs1,
       image_list_from_url w url fs = (Ret (r0, lst), fs1) /\
       (r0 < 0 -> r = - r0)).
Proof.
  split.
  - intros store fs fs' r res nr. apply image_local_metadata_shape.
  - intros url fs fs' r res nr. apply image_remote_metadata_shape.
Qed.

Lemma listing_outputs_agree_witness :
  listing_shape 0 (Some Fixtures.spec_entries) (Some 3%nat) /\
  listing_shape ENOENT None None /\
  exists r0 lst fs1,
    image_list_from_url Fixtures.unreadable_world
                        "https://example.org/sysext" []
    = (Ret (r0, lst), fs1) /\
    (r0 < 0 -> ENOENT = - r0).
Proof.
  split.
  - apply (proj1 (listing_outputs_agree
                    (Fixtures.store_world Fixtures.spec_directory))
                 "/var/lib/sysext-store" [] [] 0
                 (Some Fixtures.spec_entries) (Some 3%nat) eq_refl).
  - apply (proj2 (listing_outputs_agree Fixtures.unreadable_world)
                 "https://example.org/sysext" [] [] ENOENT None None eq_refl).
Defined.

(* ================================================================== *)
(** * Update selector: further properties                               *)
(* ================================================================== *)

Section SelectorFacts.

Lemma check_if_newer_cases (old new : image_entry)
      (update : option image_entry) (fs : tmpfs) :
  (check_if_newer old new update fs = (Fault, fs)) \/
  (check_if_newer old new update fs = (Ret (0, new, update), fs)) \/
  (check_if_newer old new update fs
   = (Ret (0, set_deps new None, Some (update_of new)), fs) /\
   exists cd, deps old = Some cd /\ qualifies cd new).
Proof.
  unfold check_if_newer.
  destruct (deps old) as [od|] eqn:Ho; [|now left].
  destruct (deps new) as [nd|] eqn:Hn; [|now left].
  pose proof (guard_qualifies od new nd Hn) as Hg.
  destruct (streq (architecture od) (architecture nd)
            && (version_cmp (sysext_version_id od) (sysext_version_id nd) <? 0));
    [|now right; left].
  assert (Hq : exists cd, Some od = Some cd /\ qualifies cd new)
    by (exists od; split; [reflexivity | now apply Hg]).
  destruct update as [u|]; [|now right; right].
  destruct (deps u); [|now left].
  destruct (_ >=? _); [now right; left | now right; right].
Qed.

Lemma check_if_newer_built (old new new' : image_entry)
      (update update' : option image_entry) (r : Z) (fs fs' : tmpfs) :
  check_if_newer old new update fs = (Ret (r, new', update'), fs') ->
  built_update update -> built_update update'.
Proof.
  intros H Hb.
  destruct (check_if_newer_cases old new update fs)
    as [E|[E|[E (cd & _ & d & Hd & _)]]]; rewrite E in H;
    try discriminate; inversion H; subst; trivial.
  intros u Hu. inversion Hu; subst. simpl. split; [reflexivity | congruence].
Qed.

Lemma scan_images_built (curr : image_entry) (n : nat) :
  forall (images : list image_entry) (update update' : option image_entry)
         (fs fs' : tmpfs),
    scan_images curr images n update fs = (Ret update', fs') ->
    built_update update -> built_update update'.
Proof.
  induction n as [|n IH]; intros images update update' fs fs' H Hb;
    destruct images as [|e rest]; simpl in H; try discriminate;
    try (inversion H; subst; exact Hb).
  unfold bind at 1 in H.
  destruct (check_if_newer curr e update fs) as [[[[r e'] u1]|st| |] fs1] eqn:E;
    try discriminate.
  exact (IH _ _ _ _ _ H (check_if_newer_built _ _ _ _ _ _ _ _ E Hb)).
Qed.

Lemma scan_images_prefix (curr : image_entry) (l1 l2 : list image_entry) :
  forall (update : option image_entry) (fs : tmpfs),
    scan_images curr (l1 ++ l2) (List.length l1) update fs
    = scan_images curr l1 (List.length l1) update fs.
Proof.
  induction l1 as [|e rest IH]; intros update fs; simpl.
  - now destruct l2.
  - unfold bind.
    destruct (check_if_newer curr e update fs) as [[[[r e'] u1]|st| |] fs1];
      trivial.
Qed.

Lemma scan_images_overrun (curr : image_entry) (l : list image_entry) :
  forall (n : nat) (update : option image_entry) (fs : tmpfs),
    (List.length l < n)%nat ->
    scan_images curr l n update fs = (Fault, fs).
Proof.
  induction l as [|e rest IH]; intros n update fs Hn;
    destruct n as [|n]; simpl in *; try lia; [reflexivity|].
  unfold bind.
  destruct (check_if_newer_cases curr e update fs) as [E|[E|[E _]]];
    rewrite E; [reflexivity | apply IH; lia | apply IH; lia].
Qed.

End SelectorFacts.

(** X9.  A call of [check_if_newer] that returns, returns 0 and leaves
    the temporary files alone, and either changes nothing, or moves the
    metadata.  Then the candidate loses [deps] and keeps its name and its
    four flags, and [*update] becomes a new entry with the candidate's
    name, the candidate's metadata, its [local], [installed] and
    [compatible] flags and a clear [remote] flag.  The second happens only
    for a candidate that qualifies against the installed entry. *)
Theorem check_if_newer_moves_deps
        (old new new' : image_entry) (update update' : option image_entry)
        (r : Z) (fs fs' : tmpfs) :
  check_if_newer old new update fs = (Ret (r, new', update'), fs') ->
  r = 0 /\ fs' = fs /\
  ((new' = new /\ update' = update) \/
   ((deps new' = None /\ name new' = name new /\ local new' = local new /\
     remote new' = remote new /\ installed new' = installed new /\
     compatible new' = compatible new) /\
    (exists u,
       update' = Some u /\ name u = name new /\
       deps u = deps new /\ deps u <> None /\
       local u = local new /\ installed u = installed new /\
       compatible u = compatible new /\ remote u = false) /\
    exists cd, deps old = Some cd /\ qualifies cd new)).
Proof.
  intros H.
  destruct (check_if_newer_cases old new update fs) as [E|[E|[E Hq]]];
    rewrite E in H; try discriminate; inversion H; subst.
  - split; [reflexivity|]. split; [reflexivity|]. now left.
  - split; [reflexivity|]. split; [reflexivity|]. right.
    split; [repeat (split; [reflexivity|]); reflexivity|].
    split; [|exact Hq].
    exists (update_of new). cbn [update_of name deps local installed
                                  compatible remote].
    split; [reflexivity|]. split; [reflexivity|]. split; [reflexivity|].
    split; [|repeat (split; [reflexivity|]); reflexivity].
    destruct Hq as (cd & _ & d & Hd & _). congruence.
Qed.

Lemma check_if_newer_moves_deps_witness :
  exists new' update',
    check_if_newer Fixtures.installed_1_0
                   (Fixtures.entry_of "debug-tools" "1.1" "x86_64") None []
    = (Ret (0, new', update'), []) /\
    deps new' = None /\ installed new' = false /\
    exists u, update' = Some u /\ name u = "debug-tools" /\
              deps u = Some (Fixtures.deps_of "1.1" "x86_64").
Proof.
  do 2 eexists. split; [reflexivity|].
  destruct (check_if_newer_moves_deps
              Fixtures.installed_1_0
              (Fixtures.entry_of "debug-tools" "1.1" "x86_64")
              (set_deps (Fixtures.entry_of "debug-tools" "1.1" "x86_64") None)
              None (Some (update_of (Fixtures.entry_of "debug-tools" "1.1" "x86_64")))
              0 [] [] eq_refl)
    as (_ & _ & [[Hsame _]|((Hd & _ & _ & _ & Hi & _) & (u & Hu & Hn & Hdu & _) & _)]).
  - discriminate.
  - split; [exact Hd|]. split; [exact Hi|]. exists u.
    split; [exact Hu|]. split; [exact Hn | exact Hdu].
Defined.

(** X10.  The scan reads exactly [n] entries: what follows the first [n]
    entries of the array never changes the outcome, and a count greater
    than the number of entries runs into the terminating NULL, which is
    dereferenced. *)
Theorem scan_images_bounds (curr : image_entry) :
  (forall l1 l2 update fs,
     scan_images curr (l1 ++ l2) (List.length l1) update fs
     = scan_images curr l1 (List.length l1) update fs) /\
  (forall l n update fs,
     (List.length l < n)%nat ->
     scan_images curr l n update fs = (Fault, fs)).
Proof.
  split.
  - intros l1 l2. apply scan_images_prefix.
  - intros l. apply scan_images_overrun.
Qed.

Lemma scan_images_bounds_witness :
  scan_images Fixtures.installed_1_0 Fixtures.remote_1 3 None [] = (Fault, []).
Proof.
  apply (proj2 (scan_images_bounds Fixtures.installed_1_0)). simpl. lia.
Defined.

(** X11.  Whatever the two metadata callees do, a return of
    [get_latest_version] has one of three forms.  It is the negative
    status of the remote callee, with no update, and the store was not
    looked at.  Or it is the negative status of the local callee, with no
    update, after the remote callee, if called, gave a status that is not
    negative.  Or it is 0, after both gave a status that is not negative;
    only then can an update be handed out, and that update has its
    metadata and a clear [remote] flag, also when it was taken from the
    remote list. *)
Theorem get_latest_version_result
        (store : string)
        (remote_metadata local_metadata : string -> string -> M metadata_result)
        (curr : image_entry) (url : option string) (fs fs' : tmpfs)
        (r : Z) (new : option image_entry) :
  get_latest_version store remote_metadata local_metadata curr url fs
  = (Ret (r, new), fs') ->
  ((exists u res nr,
      url = Some u /\
      remote_metadata u (name curr) fs = (Ret (r, res, nr), fs') /\
      r < 0 /\ new = None) \/
   (exists r1 res1 n1 fs1,
      match url with
      | Some u => remote_metadata u (name curr) fs = (Ret (r1, res1, n1), fs1)
      | None => (r1, res1, n1, fs1) = (0, None, None, fs)
      end /\ 0 <= r1 /\
      exists u1 fs2 r2 res2 n2 fs3,
        scan_images curr (images_of res1) (count_of n1) None fs1
        = (Ret u1, fs2) /\
        local_metadata store (name curr) fs2 = (Ret (r2, res2, n2), fs3) /\
        ((r2 < 0 /\ r = r2 /\ new = None /\ fs' = fs3) \/
         (0 <= r2 /\ r = 0 /\
          scan_images curr (images_of res2) (count_of n2) u1 fs3
          = (Ret new, fs'))))) /\
  (forall u, new = Some u -> r = 0 /\ remote u = false /\ deps u <> None).
Proof.
  unfold get_latest_version. unfold bind at 1.
  assert (Hrem : forall r1 res1 n1 fs1,
             match url with
             | Some u => remote_metadata u (name curr)
             | None => ret (0, None, None)
             end fs = (Ret (r1, res1, n1), fs1) ->
             match url with
             | Some u => remote_metadata u (name curr) fs
                         = (Ret (r1, res1, n1), fs1)
             | None => (r1, res1, n1, fs1) = (0, None, None, fs)
             end).
  { intros r1 res1 n1 fs1. destruct url; [trivial|].
    intros H. now inversion H. }
  destruct (match url with
            | Some u => remote_metadata u (name curr)
            | None => ret (0, None, None)
            end fs) as [[[[r1 res1] n1]|st| |] fs1] eqn:R; try discriminate.
  specialize (Hrem r1 res1 n1 fs1 eq_refl).
  destruct (r1 <? 0) eqn:E1.
  { apply Z.ltb_lt in E1. intros H. inversion H; subst.
    split; [|discriminate]. left.
    destruct url as [u|]; [|inversion Hrem; lia].
    exists u, res1, n1. auto. }
  apply Z.ltb_ge in E1. unfold bind at 1.
  destruct (scan_images curr (images_of res1) (count_of n1) None fs1)
    as [[u1|st| |] fs2] eqn:S1; try discriminate.
  assert (B1 : built_update u1).
  { apply (scan_images_built _ _ _ _ _ _ _ S1). intros u Hu. discriminate. }
  unfold bind at 1.
  destruct (local_metadata store (name curr) fs2)
    as [[[[r2 res2] n2]|st| |] fs3] eqn:L; try discriminate.
  destruct (r2 <? 0) eqn:E2.
  { apply Z.ltb_lt in E2. intros H. inversion H; subst.
    split; [|discriminate]. right.
    exists r1, res1, n1, fs1. split; [exact Hrem|]. split; [exact E1|].
    exists u1, fs2, r, res2, n2, fs'. split; [exact S1|].
    split; [exact L|]. left. auto. }
  apply Z.ltb_ge in E2. unfold bind at 1.
  destruct (scan_images curr (images_of res2) (count_of n2) u1 fs3)
    as [[u2|st| |] fs4] eqn:S2; try discriminate.
  pose proof (scan_images_built _ _ _ _ _ _ _ S2 B1) as B2.
  intros H. inversion H; subst. split.
  - right. exists r1, res1, n1, fs1. split; [exact Hrem|]. split; [exact E1|].
    exists u1, fs2, r2, res2, n2, fs3. split; [exact S1|].
    split; [exact L|]. right. auto.
  - intros u Hu. split; [reflexivity | now apply B2].
Qed.

Lemma get_latest_version_result_witness :
  0 = 0 /\
  remote (Fixtures.entry_of "debug-tools" "1.2" "x86_64") = false /\
  deps (Fixtures.entry_of "debug-tools" "1.2" "x86_64") <> None.
Proof.
  apply (proj2 (get_latest_version_result
                  "/var/lib/sysext-store"
                  (Fixtures.listing Fixtures.remote_1)
                  (Fixtures.listing Fixtures.local_1)
                  Fixtures.installed_1_0 (Some "https://example.org/sysext")
                  [] [] 0
                  (Some (Fixtures.entry_of "debug-tools" "1.2" "x86_64"))
                  eq_refl)
               (Fixtures.entry_of "debug-tools" "1.2" "x86_64") eq_refl).
Defined.

(* ================================================================== *)
(** * A store that cannot be listed                                     *)
(* ================================================================== *)

(** X13.  A store directory that cannot be scanned is not an error for
    [get_latest_version].  When the scan of the directory fails,
    [image_local_metadata] returns the errno of the scan, a positive
    value, and writes neither output.  And when the local callee returns
    a positive value and writes neither output, [get_latest_version]
    without a URL returns 0 and no update. *)
Theorem unlisted_store_is_no_error (w : world) (curr : image_entry) :
  (forall store errno fs,
     readdir_all w store = inl errno ->
     image_local_metadata w store fs = (Ret (Zpos errno, None, None), fs)) /\
  (forall store remote_metadata local_metadata r2 fs fs1,
     local_metadata store (name curr) fs = (Ret (r2, None, None), fs1) ->
     0 < r2 ->
     get_latest_version store remote_metadata local_metadata curr None fs
     = (Ret (0, None), fs1)).
Proof.
  split.
  - intros store errno fs Hscan.
    rewrite image_local_metadata_run.
    unfold discover_images, scandir. rewrite Hscan. reflexivity.
  - intros store remote_metadata local_metadata r2 fs fs1 L Hr2.
    unfold get_latest_version. unfold bind at 1. cbn.
    unfold bind at 1. rewrite L.
    replace (r2 <? 0) with false by (symmetry; apply Z.ltb_ge; lia).
    reflexivity.
Qed.

Lemma unlisted_store_is_no_error_witness :
  image_local_metadata Fixtures.unreadable_world "/var/lib/sysext-store" []
  = (Ret (2, None, None), []) /\
  get_latest_version "/var/lib/sysext-store"
    (fun u _ => image_remote_metadata Fixtures.unreadable_world u)
    (fun store _ => image_local_metadata Fixtures.unreadable_world store)
    Fixtures.installed_1_0 None []
  = (Ret (0, None), []).
Proof.
  split.
  - apply (proj1 (unlisted_store_is_no_error Fixtures.unreadable_world
                                             Fixtures.installed_1_0)
                 "/var/lib/sysext-store" 2%positive []).
    reflexivity.
  - apply (proj2 (unlisted_store_is_no_error Fixtures.unreadable_world
                                             Fixtures.installed_1_0)
                 "/var/lib/sysext-store" _ _ 2 [] []).
    + reflexivity.
    + lia.
Defined.

(* ================================================================== *)
(** * Remote index reader: the names it returns                         *)
(* ================================================================== *)

Section ManifestNames.

Lemma read_lines_chomp (content : string) :
  Forall (fun l => occurs "010" (chomp l) = false) (read_lines content).
Proof.
  induction content as [|c t IH]; simpl; [constructor|].
  destruct (Ascii.eqb c "010") eqn:E.
  - constructor; [|exact IH]. simpl. now rewrite E.
  - destruct (read_lines t) as [|l ls].
    + constructor; [|constructor]. simpl. rewrite E. simpl. now rewrite E.
    + inversion IH as [|? ? Hl Hls]; subst. constructor; [|exact Hls].
      destruct l as [|a l'].
      * simpl. rewrite E. simpl. now rewrite E.
      * change (chomp (String c (String a l')))
          with (String c (chomp (String a l'))).
        simpl occurs. rewrite E. exact Hl.
Qed.

Lemma strchr_occurs (s p : string) (c : ascii) :
  strchr s c = Some p -> occurs c s = true.
Proof.
  intros H. destruct (occurs c s) eqn:E; [reflexivity|].
  apply strchr_none in E. congruence.
Qed.

Lemma extracted_name_ok (line p : string) :
  is_image_name line = true -> occurs "010" line = false ->
  strchr line " " = Some p -> image_name_ok (skip_spaces p).
Proof.
  intros Himg Hnl Hp.
  pose proof (strchr_occurs _ _ _ Hp) as Hsp.
  rewrite <- (strchr_skip_token _ _ Hp). fold (filename_field line).
  assert (Hfield : is_image_name (filename_field line) = true)
    by now rewrite is_image_name_field.
  split; [exact Hfield|]. split.
  - destruct (filename_field_suffix line) as [front E].
    rewrite E, occurs_append in Hnl. now apply orb_false_iff in Hnl.
  - pose proof (skip_spaces_head (skip_token line)) as Hhead.
    unfold filename_field in *.
    destruct (skip_spaces (skip_token line)); [discriminate | exact Hhead].
Qed.

(** The C string a buffer starts with holds no byte the buffer does not
    hold. *)
Lemma c_str_occurs (c : ascii) (s : string) :
  occurs c s = false -> occurs c (c_str s) = false.
Proof.
  induction s as [|a t IH]; simpl; [trivial|].
  destruct (Ascii.eqb a "000"); [reflexivity|]. simpl.
  destruct (Ascii.eqb a c); [discriminate | exact IH].
Qed.

Variable w : world.

Lemma manifest_loop_names (lines : list string) :
  Forall (fun l => occurs "010" (chomp l) = false) lines ->
  forall (result res : list string) (fs fs' : tmpfs),
    manifest_loop lines result fs = (Ret res, fs') ->
    Forall image_name_ok result -> Forall image_name_ok res.
Proof.
  induction 1 as [|raw rest Hraw Hrest IH]; intros result res fs fs' H Hres.
  - inversion H; subst. exact Hres.
  - cbn [manifest_loop] in H. fold (is_image_name (c_str (chomp raw))) in H.
    destruct (is_image_name (c_str (chomp raw))) eqn:Himg;
      [|exact (IH _ _ _ _ H Hres)].
    destruct (strchr (c_str (chomp raw)) " ") as [p|] eqn:Hp; [|discriminate].
    apply (IH _ _ _ _ H). apply Forall_app. split; [exact Hres|].
    constructor; [|constructor].
    apply (extracted_name_ok (c_str (chomp raw)) p); trivial.
    now apply c_str_occurs.
Qed.

End ManifestNames.

(** X14.  Whenever [image_list_from_url] returns, its status is 0 or
    negative and the list is written exactly when the status is 0, also
    for a manifest without any image line.  Every name of the list ends
    in ".raw" or ".img", holds no newline, is not empty and does not
    start with a space. *)
Theorem image_list_from_url_names
        (w : world) (url : string) (fs fs' : tmpfs) (r : Z) (result : strv) :
  image_list_from_url w url fs = (Ret (r, result), fs') ->
  r <= 0 /\ (r = 0 <-> result <> None) /\
  Forall image_name_ok (strv_list result).
Proof.
  unfold image_list_from_url, with_tempfile.
  destruct (download w url "SHA256SUMS") as [r0 content].
  destruct (r0 <? 0) eqn:E0.
  { apply Z.ltb_lt in E0. intros H. inversion H; subst.
    split; [lia|]. split; [split; [lia | congruence] | constructor]. }
  destruct (fdopen w _) as [errno|].
  { intros H. inversion H; subst.
    split; [lia|]. split; [split; [lia | congruence] | constructor]. }
  unfold bind.
  destruct (manifest_loop (read_lines content) [] _) as [[res|st| |] fs1] eqn:L;
    try discriminate.
  intros H. inversion H; subst.
  split; [lia|]. split; [split; [discriminate | reflexivity]|].
  simpl. apply (manifest_loop_names (read_lines content)
                                    (read_lines_chomp content) _ _ _ _ L).
  constructor.
Qed.

Lemma image_list_from_url_names_witness :
  0 <= 0 /\ (0 = 0 <-> Some ["foo-1.0.x86_64.raw"; "bar-2.1.aarch64.img"] <> None) /\
  Forall image_name_ok
         (strv_list (Some ["foo-1.0.x86_64.raw"; "bar-2.1.aarch64.img"])).
Proof.
  apply (image_list_from_url_names
           (Fixtures.remote_world Fixtures.manifest_good [])
           "https://example.org/sysext" [] [] 0
           (Some ["foo-1.0.x86_64.raw"; "bar-2.1.aarch64.img"])).
  reflexivity.
Defined.

(* ================================================================== *)
(** * json-common.c: the document loader                                *)
(* ================================================================== *)

Section JsonArrayFacts.
Variable sd_json_parse_file : string -> Z * option JsonCommon.sd_json_variant.
Variable sd_json_dispatch :
  option JsonCommon.sd_json_variant -> JsonCommon.image_entry ->
  Z * JsonCommon.image_entry.

(** Objects never stop the loop, whatever the dispatch says of them. *)
Lemma load_loop_objects (objects rest : list JsonCommon.sd_json_variant) :
  Forall (fun e => JsonCommon.sd_json_variant_is_object (Some e) = true) objects ->
  forall images,
    JsonCommon.load_loop sd_json_dispatch (objects ++ rest) images
    = JsonCommon.load_loop sd_json_dispatch rest
        (images ++ List.map (parsed_entry sd_json_dispatch) objects).
Proof.
  induction 1 as [|e objects He Hrest IH]; intros images.
  - simpl. now rewrite app_nil_r.
  - cbn [app JsonCommon.load_loop List.map]. rewrite He. cbn [negb].
    pose proof (parse_image_entry_nonneg sd_json_dispatch (Some e)
                                         JsonCommon.calloc_image_entry) as Hp.
    unfold parsed_entry at 1.
    destruct (JsonCommon.parse_image_entry sd_json_dispatch (Some e)
                                           JsonCommon.calloc_image_entry)
      as [r entry].
    cbn [fst snd] in *. apply Z.ltb_ge in Hp. rewrite Hp.
    rewrite IH. now rewrite <- app_assoc.
Qed.

End JsonArrayFacts.

(** X15.  [load_image_entries] on a document that parses to an array: if
    every element is an object, it returns 0 and one entry per element,
    in order, each as [parse_image_entry] left it, whether or not the
    dispatch accepted the element; at the first element that is not an
    object it returns [EINVAL] (positive) and leaves the entries of the
    elements before it. *)
Theorem load_image_entries_array
        (sd_json_parse_file : string -> Z * option JsonCommon.sd_json_variant)
        (sd_json_dispatch : option JsonCommon.sd_json_variant ->
                            JsonCommon.image_entry -> Z * JsonCommon.image_entry)
        (path : string) (r : Z) (elements : list JsonCommon.sd_json_variant) :
  sd_json_parse_file path = (r, Some (JsonCommon.JArray elements)) ->
  0 <= r ->
  (Forall (fun e => JsonCommon.sd_json_variant_is_object (Some e) = true)
          elements ->
   JsonCommon.load_image_entries sd_json_parse_file sd_json_dispatch path
   = (0, Some (List.map (parsed_entry sd_json_dispatch) elements))) /\
  (forall objects e rest,
     elements = objects ++ e :: rest ->
     Forall (fun e => JsonCommon.sd_json_variant_is_object (Some e) = true)
            objects ->
     JsonCommon.sd_json_variant_is_object (Some e) = false ->
     JsonCommon.load_image_entries sd_json_parse_file sd_json_dispatch path
     = (EINVAL, Some (List.map (parsed_entry sd_json_dispatch) objects))).
Proof.
  intros Hparse Hr. unfold JsonCommon.load_image_entries. rewrite Hparse.
  apply Z.ltb_ge in Hr. rewrite Hr. cbn [JsonCommon.sd_json_variant_is_array
                                          JsonCommon.sd_json_variant_elements].
  split.
  - intros Hall.
    pose proof (load_loop_objects sd_json_dispatch elements [] Hall []) as L.
    rewrite app_nil_r in L. rewrite L. reflexivity.
  - intros objects e rest -> Hall He.
    rewrite (load_loop_objects sd_json_dispatch objects (e :: rest) Hall []).
    cbn [JsonCommon.load_loop]. rewrite He. reflexivity.
Qed.

Lemma load_image_entries_array_witness :
  JsonCommon.load_image_entries Scenarios.parse_mixed_array
                                Fixtures.dispatch_rejects "images.json"
  = (EINVAL, Some [JsonCommon.calloc_image_entry; JsonCommon.calloc_image_entry]).
Proof.
  apply (proj2 (load_image_entries_array
                  Scenarios.parse_mixed_array Fixtures.dispatch_rejects
                  "images.json" 0
                  [JsonCommon.JObject []; JsonCommon.JObject [];
                   JsonCommon.JString "x"; JsonCommon.JObject []]
                  eq_refl (Z.le_refl 0))
               [JsonCommon.JObject []; JsonCommon.JObject []]
               (JsonCommon.JString "x") [JsonCommon.JObject []]).
  - reflexivity.
  - repeat constructor.
  - reflexivity.
Defined.

(** X16.  [parse_image_entry] returns 0 exactly when both dispatch passes,
    over the object and over its nested [sysext] value, return a
    non-negative status, and then the entry no longer refers to the
    nested value; when the first pass fails the second is not run: the
    result is the negated status of the first pass and the entry as that
    pass left it.  The return value is never negative. *)
Theorem parse_image_entry_passes
        (sd_json_dispatch : option JsonCommon.sd_json_variant ->
                            JsonCommon.image_entry -> Z * JsonCommon.image_entry)
        (json : option JsonCommon.sd_json_variant) (e : JsonCommon.image_entry) :
  let first := sd_json_dispatch json e in
  let second := sd_json_dispatch (JsonCommon.sysext (snd first)) (snd first) in
  let result := JsonCommon.parse_image_entry sd_json_dispatch json e in
  0 <= fst result /\
  (fst result = 0 <-> 0 <= fst first /\ 0 <= fst second) /\
  (fst result = 0 -> JsonCommon.sysext (snd result) = None) /\
  (fst first < 0 -> result = (- fst first, snd first)).
Proof.
  cbv zeta. unfold JsonCommon.parse_image_entry.
  destruct (sd_json_dispatch json e) as [r1 e1]. cbn [fst snd].
  destruct (r1 <? 0) eqn:E1.
  { apply Z.ltb_lt in E1. cbn [fst snd].
    split; [lia|]. split; [split; lia|]. split; [lia | reflexivity]. }
  apply Z.ltb_ge in E1.
  destruct (sd_json_dispatch (JsonCommon.sysext e1) e1) as [r2 e2].
  cbn [fst snd].
  destruct (r2 <? 0) eqn:E2.
  - apply Z.ltb_lt in E2. cbn [fst snd].
    split; [lia|]. split; [split; lia|]. split; lia.
  - apply Z.ltb_ge in E2. cbn [fst snd].
    split; [lia|]. split; [split; [lia | reflexivity]|].
    split; [reflexivity | lia].
Qed.

Lemma parse_image_entry_passes_witness :
  JsonCommon.parse_image_entry Fixtures.dispatch_rejects
                               (Some (JsonCommon.JObject []))
                               JsonCommon.calloc_image_entry
  = (22, JsonCommon.calloc_image_entry).
Proof.
  apply (proj2 (proj2 (proj2 (parse_image_entry_passes
                                Fixtures.dispatch_rejects
                                (Some (JsonCommon.JObject []))
                                JsonCommon.calloc_image_entry)))).
  vm_compute. reflexivity.
Defined.

(* ================================================================== *)
(** * Remote listing: how the process can end                           *)
(* ================================================================== *)

Section RemoteAborts.
Variable w : world.
Variable url : string.

Lemma image_json_from_url_one (img : string) (fs : tmpfs) :
  one_record w url img ->
  exists d fs', image_json_from_url w url img fs = (Ret (0, Some d), fs').
Proof.
  intros (r & content & r' & d & Hd & Hr & Hl & Hr').
  pose proof (image_json_from_url_run w url img fs) as H. cbv zeta in H.
  rewrite Hd, Hl in H. apply Z.ltb_ge in Hr, Hr'. rewrite Hr, Hr' in H.
  now exists d, (unlink (mkostemp_safe w "/tmp/sysext-image-json.XXXXXX" fs)
                        (mkostemp_safe w "/tmp/sysext-image-json.XXXXXX" fs :: fs)).
Qed.

Lemma image_json_from_url_many (img : string) (fs : tmpfs) :
  many_records w url img ->
  image_json_from_url w url img fs
  = (Exit EXIT_FAILURE,
     mkostemp_safe w "/tmp/sysext-image-json.XXXXXX" fs :: fs).
Proof.
  intros (r & content & r' & d1 & d2 & rest & Hd & Hr & Hl & Hr').
  pose proof (image_json_from_url_run w url img fs) as H. cbv zeta in H.
  rewrite Hd, Hl in H. apply Z.ltb_ge in Hr, Hr'. now rewrite Hr, Hr' in H.
Qed.

Lemma remote_loop_exit (before : list string) (img : string)
      (after : list string) :
  Forall (one_record w url) before -> many_records w url img ->
  forall (images : list image_entry) (fs : tmpfs),
  exists fs1,
    remote_loop w url (before ++ img :: after) images fs
    = (Exit EXIT_FAILURE,
       mkostemp_safe w "/tmp/sysext-image-json.XXXXXX" fs1 :: fs1).
Proof.
  intros Hone Hmany. induction Hone as [|p before Hp _ IH]; intros images fs.
  - exists fs. cbn [app remote_loop]. unfold bind.
    now rewrite (image_json_from_url_many img fs Hmany).
  - destruct (image_json_from_url_one p fs Hp) as (d & fs' & Hrun).
    cbn [app remote_loop]. unfold bind at 1. rewrite Hrun.
    cbn [Z.ltb Z.compare]. apply IH.
Qed.

End RemoteAborts.

(** X17.  The remote listing inherits both ways in which its readers end
    the process.  If the manifest has a line whose C string ends in
    ".raw" or ".img" and has no space, [image_remote_metadata]
    dereferences a null pointer.  If the manifest is read and the document
    of a listed image holds two records or more, while the documents of
    the images listed before it hold one each, it ends in
    [exit(EXIT_FAILURE)], and the temporary file of that document is left
    behind. *)
Theorem remote_listing_inherits_aborts
        (w : world) (url : string) (fs : tmpfs) :
  (forall content r,
     download w url "SHA256SUMS" = (r, content) -> 0 <= r ->
     (forall tmpfn, fdopen w tmpfn = None) ->
     (exists l, In l (manifest_lines content) /\
                is_image_name l = true /\ occurs " " l = false) ->
     fst (image_remote_metadata w url fs) = Fault) /\
  (forall r0 lst fs1 before img after,
     image_list_from_url w url fs = (Ret (r0, lst), fs1) -> 0 <= r0 ->
     strv_list lst = before ++ img :: after ->
     Forall (one_record w url) before -> many_records w url img ->
     exists fs2,
       image_remote_metadata w url fs
       = (Exit EXIT_FAILURE,
          mkostemp_safe w "/tmp/sysext-image-json.XXXXXX" fs2 :: fs2)).
Proof.
  split.
  - intros content r Hd Hr Hf Hbare.
    assert (L : fst (image_list_from_url w url fs) = Fault).
    { rewrite (image_list_from_url_run w url content r fs Hd Hr Hf).
      unfold manifest_lines in Hbare. now rewrite manifest_loop_fault. }
    rewrite image_remote_metadata_run.
    destruct (image_list_from_url w url fs) as [[a|st| |] fs1];
      simpl in L; try discriminate. reflexivity.
  - intros r0 lst fs1 before img after Hlist Hr0 Hlst Hone Hmany.
    destruct (remote_loop_exit w url before img after Hone Hmany [] fs1)
      as (fs2 & Hloop).
    exists fs2. rewrite image_remote_metadata_run, Hlist.
    apply Z.ltb_ge in Hr0. rewrite Hr0.
    assert (Hin : In img (strv_list lst)) by (rewrite Hlst; apply in_elt).
    rewrite (strv_length_pos lst img Hin). now rewrite Hlst, Hloop.
Qed.

Lemma remote_listing_inherits_aborts_witness :
  fst (image_remote_metadata (Fixtures.remote_world Fixtures.manifest_bare [])
                             "https://example.org/sysext" []) = Fault /\
  exists fs2,
    image_remote_metadata Scenarios.world_two_architectures
                          "https://example.org/sysext" []
    = (Exit EXIT_FAILURE,
       mkostemp_safe Scenarios.world_two_architectures
                     "/tmp/sysext-image-json.XXXXXX" fs2 :: fs2).
Proof.
  split.
  - apply (proj1 (remote_listing_inherits_aborts
                    (Fixtures.remote_world Fixtures.manifest_bare [])
                    "https://example.org/sysext" [])
                 Fixtures.manifest_bare 0 eq_refl (Z.le_refl 0)
                 (fun _ => eq_refl)).
    exists "bar-2.1.aarch64.img". split; [|split]; vm_compute; auto.
  - apply (proj2 (remote_listing_inherits_aborts
                    Scenarios.world_two_architectures
                    "https://example.org/sysext" [])
                 0 (Some ["foo-1.0.x86_64.raw"; "bar-2.1.aarch64.img"]) []
                 [] "foo-1.0.x86_64.raw" ["bar-2.1.aarch64.img"]).
    + reflexivity.
    + lia.
    + reflexivity.
    + constructor.
    + exists 0, Fixtures.manifest_good, 0,
        (Fixtures.deps_of "1.0" "x86_64"), (Fixtures.deps_of "1.0" "aarch64"), [].
      repeat split; try reflexivity; lia.
Defined.

(* ================================================================== *)
(** * Metadata listings: the first failure decides                      *)
(* ================================================================== *)

Section FirstFailure.
Variable w : world.
Variable url : string.

Lemma one_record_succeeds (img : string) :
  one_record w url img -> ~ remote_metadata_fails w url img.
Proof.
  intros (r & content & r' & d & Hd & Hr & Hl & Hr').
  unfold remote_metadata_fails. rewrite Hd, Hl.
  intros [?|[?|[?|?]]]; try lia; discriminate.
Qed.

Lemma image_remote_metadata_first_failure_one
      (fs fs1 : tmpfs) (r0 : Z) (lst : strv)
      (before : list string) (img : string) (after : list string) :
  image_list_from_url w url fs = (Ret (r0, lst), fs1) -> 0 <= r0 ->
  strv_list lst = before ++ img :: after ->
  Forall (one_record w url) before ->
  remote_metadata_fails w url img ->
  exists r fsa fs',
    image_json_from_url w url img fsa = (Ret (r, None), fs') /\ r < 0 /\
    image_remote_metadata w url fs = (early_return (- r) after, fs').
Proof.
  intros D Hr0 Hlst Hone Hfail.
  assert (Hok : Forall (fun p => ~ remote_metadata_fails w url p) before).
  { apply (Forall_impl _ one_record_succeeds Hone). }
  destruct (image_remote_metadata_first_failure
              w url fs fs1 r0 lst before img after D Hr0 Hlst Hok Hfail)
    as (out & fs' & Hrun & [(_ & p & Hin & Hexit)|(r & fsa & Hj & Hr & ->)]).
  - exfalso. rewrite Forall_forall in Hone.
    destruct (image_json_from_url_one w url p fs (Hone p Hin)) as (d & fsb & E).
    rewrite E in Hexit. discriminate.
  - now exists r, fsa, fs'.
Qed.

End FirstFailure.

(** X18.  A listing stops at the first image that fails, in list order,
    and stores nothing.  If extraction or parsing fails for a discovered
    image and for none before it, and the image is the last of the list,
    [image_local_metadata] returns the negative status
    [image_read_metadata] gives for that image; if images follow it, the
    cleanup of the entry array reads the slots of those images, which
    were never written, and nothing is defined.  If the document of a
    listed remote image cannot be fetched or parsed or holds no record,
    while the documents of the images before it hold one record each,
    [image_remote_metadata] does the same with the status of
    [image_json_from_url] for that image, its sign flipped. *)
Theorem listing_fails_with_first_failure (w : world) (fs : tmpfs) :
  (forall store r0 arr fs1 before img after,
     discover_images w store fs = (Ret (r0, arr), fs1) -> 0 <= r0 ->
     names_of arr = before ++ img :: after ->
     Forall (fun p => ~ local_metadata_fails w p) before ->
     local_metadata_fails w img ->
     exists r fs',
       image_local_metadata w store fs = (early_return r after, fs') /\
       r < 0 /\
       forall fsx, exists d, fst (image_read_metadata w img fsx) = Ret (r, d)) /\
  (forall url r0 lst fs1 before img after,
     image_list_from_url w url fs = (Ret (r0, lst), fs1) -> 0 <= r0 ->
     strv_list lst = before ++ img :: after ->
     Forall (one_record w url) before ->
     remote_metadata_fails w url img ->
     exists r fs',
       image_remote_metadata w url fs = (early_return (- r) after, fs') /\
       r < 0 /\
       forall fsx, fst (image_json_from_url w url img fsx) = Ret (r, None)).
Proof.
  split.
  - intros store r0 arr fs1 before img after D Hr0 Hlst Hok Hfail.
    destruct (image_local_metadata_first_failure
                w store fs fs1 r0 arr before img after D Hr0 Hlst Hok Hfail)
      as (r & d & fsa & fs' & Hrun & Hr & Hcall).
    exists r, fs'. split; [exact Hcall|]. split; [exact Hr|].
    intros fsx. exists d.
    rewrite (image_read_metadata_value w img fsx fsa). now rewrite Hrun.
  - intros url r0 lst fs1 before img after D Hr0 Hlst Hone Hfail.
    destruct (image_remote_metadata_first_failure_one
                w url fs fs1 r0 lst before img after D Hr0 Hlst Hone Hfail)
      as (r & fsa & fs' & Hrun & Hr & Hcall).
    exists r, fs'. split; [exact Hcall|]. split; [exact Hr|].
    intros fsx.
    rewrite (image_json_from_url_value w url img fsx fsa). now rewrite Hrun.
Qed.

Lemma listing_fails_with_first_failure_witness :
  (exists r fs',
     image_local_metadata Scenarios.world_bad_image "/var/lib/sysext-store" []
     = (Ret (r, None, None), fs') /\
     r < 0 /\
     forall fsx, exists d,
       fst (image_read_metadata Scenarios.world_bad_image
                                "debug-tools-23.8.x86_64.raw" fsx)
       = Ret (r, d)) /\
  (exists r fs',
     image_local_metadata Scenarios.world_second_bad "/var/lib/sysext-store" []
     = (Undefined, fs') /\
     r < 0 /\
     forall fsx, exists d,
       fst (image_read_metadata Scenarios.world_second_bad
                                "b-1.0.x86_64.raw" fsx)
       = Ret (r, d)).
Proof.
  split.
  - apply (proj1 (listing_fails_with_first_failure Scenarios.world_bad_image [])
                 "/var/lib/sysext-store" 0
                 (Some {| written := ["debug-tools-23.8.x86_64.raw"];
                          unwritten := O |}) []
                 [] "debug-tools-23.8.x86_64.raw" []).
    + reflexivity.
    + lia.
    + reflexivity.
    + constructor.
    + left. discriminate.
  - apply (proj1 (listing_fails_with_first_failure Scenarios.world_second_bad [])
                 "/var/lib/sysext-store" 0
                 (Some {| written := ["a-1.0.x86_64.raw"; "b-1.0.x86_64.raw";
                                      "c-1.0.x86_64.raw"];
                          unwritten := O |}) []
                 ["a-1.0.x86_64.raw"] "b-1.0.x86_64.raw" ["c-1.0.x86_64.raw"]).
    + reflexivity.
    + lia.
    + reflexivity.
    + constructor; [|constructor]. vm_compute.
      intros [H|H]; [now apply H | discriminate].
    + left. discriminate.
Defined.

(* ================================================================== *)
(** * Local listing: after a symbolic link that cannot be read          *)
(* ================================================================== *)

(** X19.  When [discover_images] fails, what [image_local_metadata] does
    depends on where it failed.  After a failed directory scan the name
    array was never allocated, and the call returns the status with its
    sign flipped and writes neither output.  After a failed read of a
    symbolic link the name array is allocated and the slot of that link
    was never written: the cleanup of the array reads it, and nothing is
    defined. *)
Theorem image_local_metadata_after_failed_listing
        (w : world) (store : string) (fs fs1 : tmpfs) (r : Z)
        (arr : option name_array) :
  discover_images w store fs = (Ret (r, arr), fs1) -> r < 0 ->
  (forall errno,
     readdir_all w store = inl errno ->
     r = - Zpos errno /\
     image_local_metadata w store fs = (Ret (Zpos errno, None, None), fs1)) /\
  (forall entries,
     readdir_all w store = inr entries ->
     link_error w store (List.filter image_filter entries) r /\
     image_local_metadata w store fs = (Undefined, fs1)).
Proof.
  intros D Hr. rewrite image_local_metadata_run, D.
  unfold discover_images, scandir in D.
  destruct (readdir_all w store) as [errno|entries].
  { inversion D; subst. split; [|intros ? E; discriminate].
    intros e E. inversion E; subst e. split; reflexivity. }
  split; [intros ? E; discriminate|].
  intros entries' E. inversion E; subst entries'. clear E.
  pose proof (sort_by_perm dirent alphasort (List.filter image_filter entries))
    as Hperm.
  set (de := sort_by alphasort (List.filter image_filter entries)) in *.
  destruct (0 <? Z.of_nat (List.length de)); [|inversion D; lia].
  unfold bind in D.
  destruct (discover_loop w store de [] fs) as [[[r1 a]|st| |] fs2] eqn:Hloop;
    try discriminate.
  inversion D; subst. cbn [unwritten_of]. split.
  - destruct (discover_loop_status w store de _ _ _ _ _ Hloop)
      as (_ & _ & _ & Herr).
    destruct (Herr Hr) as (d & fn & fsa & fsb & Hin & Hrest).
    exists d, fn, fsa, fsb. split; [|exact Hrest].
    now apply (Permutation_in _ Hperm).
  - destruct (discover_loop_slots w store de _ _ _ _ _ Hloop)
      as [[H0 _]|[_ U]]; [lia|].
    destruct (unwritten a); [lia | reflexivity].
Qed.

Lemma image_local_metadata_after_failed_listing_witness :
  image_local_metadata Scenarios.world_broken_link "/var/lib/sysext-store" []
  = (Undefined, []) /\
  image_local_metadata Fixtures.unreadable_world "/var/lib/sysext-store" []
  = (Ret (2, None, None), []).
Proof.
  split.
  - refine (proj2 (proj2 (image_local_metadata_after_failed_listing
                            Scenarios.world_broken_link "/var/lib/sysext-store"
                            [] [] (-13)
                            (Some {| written := ["a.img"; "b.raw"];
                                     unwritten := 1 |})
                            eq_refl _)
                         Fixtures.spec_directory eq_refl)).
    lia.
  - refine (proj2 (proj1 (image_local_metadata_after_failed_listing
                            Fixtures.unreadable_world "/var/lib/sysext-store"
                            [] [] (-2) None eq_refl _)
                         2%positive eq_refl)).
    lia.
Defined.
